(** * ice9d: the per-connection state machine and the event loop

    A shallow embedding of [src/ice9d.c], the remote command execution
    server.  The C globals ([connections], [num_connections],
    [next_connection_id]) are threaded through a small state-and-fault
    monad; every call that leaves the program (sockets, pipe9x, the
    process API, malloc) takes its outcome from an explicit environment
    argument and leaves an entry in a trace of actions. *)

From Stdlib Require Import ZArith Lia List Bool.
From Stdlib Require Import Strings.Byte.
From stdpp Require Import base list.
Import ListNotations.
Open Scope Z_scope.

(** ** Constants of the source *)

Definition PORT : Z := 5424.
Definition MAX_CONNECTIONS : Z := 16.
Definition PIPE_READ_SIZE : Z := 32768.
Definition RECVBUF_SIZE : Z := 72 * 1024.
Definition SENDBUF_SIZE : Z := 128 * 1024.

(** [sizeof(struct MessageHeader)]: one command byte and a packed
    [uint16_t]; [sizeof(int32_t)]. *)
Definition sizeof_MessageHeader : Z := 3.
Definition sizeof_int32_t : Z := 4.

(** [enum ConnectionState], an [int] in the struct. *)
Definition CS_SETUP : Z := 0.
Definition CS_RUNNING : Z := 1.
Definition CS_CLOSING : Z := 2.

(** Win32 and Winsock constants the source compares against. *)
Definition ERROR_SUCCESS : Z := 0.
Definition ERROR_BROKEN_PIPE : Z := 109.
Definition ERROR_IO_PENDING : Z := 997.
Definition WSAEWOULDBLOCK : Z := 10035.
Definition INVALID_SOCKET : Z := -1.
Definition WAIT_OBJECT_0 : Z := 0.
Definition WAIT_FAILED : Z := 4294967295.

(** ** Machine integers

    The target is 32-bit x86: [int] and [size_t] are 32 bits wide.  A
    comparison between an [int] and a [size_t] converts the [int] to
    [size_t] first. *)

Definition size_t (x : Z) : Z := x mod 2 ^ 32.
Definition int (x : Z) : Z := (x + 2 ^ 31) mod 2 ^ 32 - 2 ^ 31.
Definition uint16_t (x : Z) : Z := x mod 2 ^ 16.

(** ** Bytes and buffers *)

Definition Z_of_byte (b : byte) : Z := Z.of_N (Byte.to_N b).
Definition byte_of_Z (z : Z) : byte :=
  default x00 (Byte.of_N (Z.to_N (z mod 256))).

(** A C array of bytes in static storage is a list whose cells past its
    end read as zero (static storage is zero-initialised). *)
Definition cell (buf : list byte) (i : nat) : byte := nth i buf x00.

Definition mem_read (buf : list byte) (off len : nat) : list byte :=
  map (cell buf) (seq off len).

Definition mem_write (buf : list byte) (off : nat) (data : list byte)
  : list byte :=
  mem_read buf 0 off ++ data ++ drop (off + length data) buf.

(** [memmove(buf + dst, buf + src, n)] *)
Definition memmove (buf : list byte) (dst src n : nat) : list byte :=
  mem_write buf dst (mem_read buf src n).

(** Little-endian images of a [uint16_t] and of an [int]. *)
Definition uint16_bytes (x : Z) : list byte :=
  [byte_of_Z (uint16_t x); byte_of_Z (uint16_t x / 256)].
Definition uint16_of_bytes (lo hi : byte) : Z :=
  Z_of_byte lo + 256 * Z_of_byte hi.

Definition int_bytes (x : Z) : list byte :=
  [byte_of_Z (size_t x); byte_of_Z (size_t x / 2 ^ 8);
   byte_of_Z (size_t x / 2 ^ 16); byte_of_Z (size_t x / 2 ^ 24)].
Definition int_of_bytes (l : list byte) : Z :=
  int (Z_of_byte (cell l 0) + 2 ^ 8 * Z_of_byte (cell l 1)
       + 2 ^ 16 * Z_of_byte (cell l 2) + 2 ^ 24 * Z_of_byte (cell l 3)).

(** A C string held in a buffer: the bytes before the first NUL. *)
Fixpoint c_str (buf : list byte) : list byte :=
  match buf with
  | [] => []
  | b :: rest => if Byte.eqb b x00 then [] else b :: c_str rest
  end.

(** [strchr(s, ch) != NULL] *)
Definition strchr (s : list byte) (ch : byte) : bool :=
  existsb (Byte.eqb ch) (c_str s).

(** ** The session record: [struct Connection] *)

Definition HANDLE := Z.
Definition PipeReadHandle := Z.
Definition PipeWriteHandle := Z.

Record Connection := mkConnection {
  id : Z;
  state : Z;
  sock : Z;
  recvbuf : list byte;
  recvbuf_used : Z;
  sendbuf : list byte;
  sendbuf_used : Z;
  application_path : option (list byte);
  command_line : option (list byte);
  working_directory : option (list byte);
  process : option HANDLE;
  stdin_pipe : option PipeWriteHandle;
  stdout_pipe : option PipeReadHandle;
  stderr_pipe : option PipeReadHandle
}.

(** A zeroed struct, as the static table holds before its first use. *)
Definition zero_connection : Connection :=
  mkConnection 0 0 0 [] 0 [] 0 None None None None None None None.

(** Field assignments. *)
Definition set_id (v : Z) (c : Connection) : Connection :=
  mkConnection v (state c) (sock c) (recvbuf c) (recvbuf_used c)
    (sendbuf c) (sendbuf_used c) (application_path c) (command_line c)
    (working_directory c) (process c) (stdin_pipe c) (stdout_pipe c)
    (stderr_pipe c).
Definition set_state (v : Z) (c : Connection) : Connection :=
  mkConnection (id c) v (sock c) (recvbuf c) (recvbuf_used c)
    (sendbuf c) (sendbuf_used c) (application_path c) (command_line c)
    (working_directory c) (process c) (stdin_pipe c) (stdout_pipe c)
    (stderr_pipe c).
Definition set_sock (v : Z) (c : Connection) : Connection :=
  mkConnection (id c) (state c) v (recvbuf c) (recvbuf_used c)
    (sendbuf c) (sendbuf_used c) (application_path c) (command_line c)
    (working_directory c) (process c) (stdin_pipe c) (stdout_pipe c)
    (stderr_pipe c).
Definition set_recvbuf (v : list byte) (c : Connection) : Connection :=
  mkConnection (id c) (state c) (sock c) v (recvbuf_used c)
    (sendbuf c) (sendbuf_used c) (application_path c) (command_line c)
    (working_directory c) (process c) (stdin_pipe c) (stdout_pipe c)
    (stderr_pipe c).
Definition set_recvbuf_used (v : Z) (c : Connection) : Connection :=
  mkConnection (id c) (state c) (sock c) (recvbuf c) v
    (sendbuf c) (sendbuf_used c) (application_path c) (command_line c)
    (working_directory c) (process c) (stdin_pipe c) (stdout_pipe c)
    (stderr_pipe c).
Definition set_sendbuf (v : list byte) (c : Connection) : Connection :=
  mkConnection (id c) (state c) (sock c) (recvbuf c) (recvbuf_used c)
    v (sendbuf_used c) (application_path c) (command_line c)
    (working_directory c) (process c) (stdin_pipe c) (stdout_pipe c)
    (stderr_pipe c).
Definition set_sendbuf_used (v : Z) (c : Connection) : Connection :=
  mkConnection (id c) (state c) (sock c) (recvbuf c) (recvbuf_used c)
    (sendbuf c) v (application_path c) (command_line c)
    (working_directory c) (process c) (stdin_pipe c) (stdout_pipe c)
    (stderr_pipe c).
Definition set_application_path (v : option (list byte)) (c : Connection)
  : Connection :=
  mkConnection (id c) (state c) (sock c) (recvbuf c) (recvbuf_used c)
    (sendbuf c) (sendbuf_used c) v (command_line c)
    (working_directory c) (process c) (stdin_pipe c) (stdout_pipe c)
    (stderr_pipe c).
Definition set_command_line (v : option (list byte)) (c : Connection)
  : Connection :=
  mkConnection (id c) (state c) (sock c) (recvbuf c) (recvbuf_used c)
    (sendbuf c) (sendbuf_used c) (application_path c) v
    (working_directory c) (process c) (stdin_pipe c) (stdout_pipe c)
    (stderr_pipe c).
Definition set_working_directory (v : option (list byte)) (c : Connection)
  : Connection :=
  mkConnection (id c) (state c) (sock c) (recvbuf c) (recvbuf_used c)
    (sendbuf c) (sendbuf_used c) (application_path c) (command_line c)
    v (process c) (stdin_pipe c) (stdout_pipe c) (stderr_pipe c).
Definition set_process (v : option HANDLE) (c : Connection) : Connection :=
  mkConnection (id c) (state c) (sock c) (recvbuf c) (recvbuf_used c)
    (sendbuf c) (sendbuf_used c) (application_path c) (command_line c)
    (working_directory c) v (stdin_pipe c) (stdout_pipe c) (stderr_pipe c).
Definition set_stdin_pipe (v : option PipeWriteHandle) (c : Connection)
  : Connection :=
  mkConnection (id c) (state c) (sock c) (recvbuf c) (recvbuf_used c)
    (sendbuf c) (sendbuf_used c) (application_path c) (command_line c)
    (working_directory c) (process c) v (stdout_pipe c) (stderr_pipe c).
Definition set_stdout_pipe (v : option PipeReadHandle) (c : Connection)
  : Connection :=
  mkConnection (id c) (state c) (sock c) (recvbuf c) (recvbuf_used c)
    (sendbuf c) (sendbuf_used c) (application_path c) (command_line c)
    (working_directory c) (process c) (stdin_pipe c) v (stderr_pipe c).
Definition set_stderr_pipe (v : option PipeReadHandle) (c : Connection)
  : Connection :=
  mkConnection (id c) (state c) (sock c) (recvbuf c) (recvbuf_used c)
    (sendbuf c) (sendbuf_used c) (application_path c) (command_line c)
    (working_directory c) (process c) (stdin_pipe c) (stdout_pipe c) v.

(** ** The trace of actions

    What the server does to the outside world, newest entry first.
    [Accepted], [Queued] and [Spawned] carry the table slot on whose
    behalf the action was taken. *)

Inductive Action :=
| Accepted (slot : nat) (connection_id : Z)
| Closesocket (s : Z)
| ConnectionClosed (slot : nat)
| Pipe9xCreate (r : PipeReadHandle) (w : PipeWriteHandle)
| Pipe9xReadClose (h : PipeReadHandle)
| Pipe9xWriteClose (h : option PipeWriteHandle)
| Pipe9xReadInitiate (h : PipeReadHandle)
| Pipe9xWriteInitiate (h : PipeWriteHandle) (data : list byte)
| Spawned (slot : nat) (p : HANDLE) (path : list byte)
    (cmdline cwd : option (list byte))
    (hin : PipeReadHandle) (hout herr : PipeWriteHandle)
| TerminateProcess (p : HANDLE)
| CloseHandle (p : HANDLE)
| Queued (slot : nat) (cmd : byte) (payload : list byte).

(** ** Program state

    The three globals of the source, the environment's handle allocator
    (every pipe end, process and thread the environment creates gets an
    identifier that was never handed out before) and the trace. *)

Record Server := mkServer {
  next_connection_id : Z;
  connections : list Connection;
  num_connections : Z;
  next_handle : Z;
  trace : list Action
}.

Definition initial_server : Server :=
  mkServer 1 (replicate (Z.to_nat MAX_CONNECTIONS) zero_connection) 0 1 [].

(** [connections[i]]; an index past the table reads a zeroed struct, an
    assignment there is dropped (the source never indexes past the table:
    [connection_init] refuses the seventeenth session). *)
Definition connection_at (s : Server) (i : nat) : Connection :=
  default zero_connection (connections s !! i).

(** ** The state-and-fault monad *)

Inductive fault :=
| NullDereference      (* a NULL pointer is read through *)
| Aborted              (* abort() *)
| AssertionFailed      (* assert() *)
| Exited               (* main returns *)
| OutOfFuel.           (* the model's loop bound was too small *)

Inductive Outcome (A : Type) :=
| Ok (a : A) (s : Server)
| Crash (f : fault).
Arguments Ok {A} a s.
Arguments Crash {A} f.

Definition M (A : Type) : Type := Server -> Outcome A.

Definition ret {A} (a : A) : M A := fun s => Ok a s.
Definition bind {A B} (m : M A) (k : A -> M B) : M B :=
  fun s => match m s with
           | Ok a s' => k a s'
           | Crash f => Crash f
           end.
Definition crash {A} (f : fault) : M A := fun _ => Crash f.

Notation "'let*' x := m 'in' k" := (bind m (fun x => k))
  (at level 10, x name, m at level 100, k at level 200).
Notation "'do' m 'then' k" := (bind m (fun _ => k))
  (at level 10, m at level 100, k at level 200).

Definition get : M Server := fun s => Ok s s.
Definition modify (f : Server -> Server) : M unit := fun s => Ok tt (f s).

Definition with_connections (f : list Connection -> list Connection)
  (s : Server) : Server :=
  mkServer (next_connection_id s) (f (connections s)) (num_connections s)
    (next_handle s) (trace s).
Definition with_num_connections (n : Z) (s : Server) : Server :=
  mkServer (next_connection_id s) (connections s) n (next_handle s)
    (trace s).
Definition with_next_connection_id (n : Z) (s : Server) : Server :=
  mkServer n (connections s) (num_connections s) (next_handle s) (trace s).
Definition with_next_handle (n : Z) (s : Server) : Server :=
  mkServer (next_connection_id s) (connections s) (num_connections s) n
    (trace s).
Definition with_trace (f : list Action -> list Action) (s : Server)
  : Server :=
  mkServer (next_connection_id s) (connections s) (num_connections s)
    (next_handle s) (f (trace s)).

(** [connection = &(connections[idx])] read, and an update through it. *)
Definition connection (idx : nat) : M Connection :=
  fun s => Ok (connection_at s idx) s.
Definition assign (idx : nat) (f : Connection -> Connection) (s : Server)
  : Server :=
  with_connections (fun t => <[idx := f (connection_at s idx)]> t) s.
Definition update (idx : nat) (f : Connection -> Connection) : M unit :=
  modify (assign idx f).
Definition record (a : Action) (s : Server) : Server :=
  with_trace (cons a) s.
Definition emit (a : Action) : M unit :=
  modify (record a).

(** The environment hands out a fresh handle. *)
Definition fresh_handle : M Z :=
  fun s => Ok (next_handle s) (with_next_handle (next_handle s + 1) s).

(** ** The environment

    Outcomes of the calls that leave the program.  Each record is what
    the environment answers during one activation of the function that
    takes it; the theorems quantify over every answer. *)

(** [send]: the number of bytes the socket takes, or [SOCKET_ERROR] with
    the code [WSAGetLastError] then reports.  A socket takes no more than
    it is offered. *)
Inductive SendResult :=
| SendTakes (n : nat)
| SendFails (error : Z).

(** [recv]: the bytes the peer has made available (none: end of stream),
    or [SOCKET_ERROR] with its code.  [recv] delivers no more than the
    length it is given. *)
Inductive RecvResult :=
| RecvHas (data : list byte)
| RecvFails (error : Z).

(** Answers consulted while one inbound frame is processed. *)
Record FrameEnv := mkFrameEnv {
  malloc_ok : bool;              (* malloc in store_string succeeds *)
  stdin_pipe_error : Z;          (* the three pipe9x_create calls *)
  stdout_pipe_error : Z;
  stderr_pipe_error : Z;
  file_missing : bool;           (* GetFileAttributes(..) == INVALID_FILE_ATTRIBUTES *)
  path_found : option (list byte);   (* path_search *)
  process_created : bool;        (* CreateProcess *)
  stdout_initiate : Z;           (* pipe9x_read_initiate(stdout_read) *)
  stderr_initiate : Z;           (* pipe9x_read_initiate(stderr_read) *)
  write_pending : bool;          (* pipe9x_write_pending(stdin_pipe) *)
  write_initiate : Z             (* pipe9x_write_initiate *)
}.

(** Answers consulted by one [pipe_read]. *)
Record PipeEnv := mkPipeEnv {
  read_error : Z;                (* pipe9x_read_result *)
  read_data : list byte;
  read_initiate : Z;             (* the re-arming pipe9x_read_initiate *)
  first_send : SendResult;       (* send in the first connection_write *)
  second_send : SendResult       (* send in the one after HANDLE_EOF *)
}.

(** Answers consulted by one pass of the socket loop of [main]. *)
Record SocketEnv := mkSocketEnv {
  flush_send : SendResult;
  read_recv : RecvResult;
  frame_env : nat -> FrameEnv    (* by position of the frame in the pass *)
}.

(** Answers consulted by one iteration of the loop of [main]. *)
Record LoopEnv := mkLoopEnv {
  pending : PipeWriteHandle -> bool;  (* pipe9x_write_pending *)
  wait_result : Z;               (* WaitForMultipleObjects *)
  accepted : option Z;           (* accept: None is INVALID_SOCKET *)
  socket_env : nat -> SocketEnv; (* by pass of the socket loop *)
  pipe_env : PipeEnv;
  write_result : Z;              (* pipe9x_write_result *)
  exit_code : Z;                 (* GetExitCodeProcess *)
  exit_send : SendResult
}.

(** ** connection_init *)

Definition connection_init (newsock : Z) : M unit :=
  let* s := get in
  if num_connections s =? MAX_CONNECTIONS then
    emit (Closesocket newsock)
  else
    let idx := Z.to_nat (num_connections s) in
    do modify (with_num_connections (size_t (num_connections s + 1))) then
    do update idx (set_id (next_connection_id s)) then
    do modify (with_next_connection_id (int (next_connection_id s + 1))) then
    do update idx (set_state CS_SETUP) then
    do update idx (set_sock newsock) then
    do update idx (set_recvbuf_used 0) then
    do update idx (set_sendbuf_used 0) then
    do update idx (set_application_path None) then
    do update idx (set_command_line None) then
    do update idx (set_working_directory None) then
    do update idx (set_process None) then
    do update idx (set_stdin_pipe None) then
    do update idx (set_stdout_pipe None) then
    do update idx (set_stderr_pipe None) then
    emit (Accepted idx (next_connection_id s)).

(** ** store_string

    [dst] is the field the pointer argument designates.  A failed
    [malloc] leaves NULL in the field. *)

Definition store_string (idx : nat)
  (dst : option (list byte) -> Connection -> Connection)
  (src : list byte) (env : FrameEnv) : M bool :=
  if malloc_ok env then
    do update idx (dst (Some (src ++ [x00]))) then ret true
  else
    do update idx (dst None) then ret false.

(** ** connection_close

    The last statement is
    [memmove(connections + idx, connections + idx + 1,
             num_connections - idx - 1)]:
    the count is a number of bytes.  With at most [MAX_CONNECTIONS]
    sessions and a live index that count is at most 15, so the copy stays
    inside the first 15 bytes of the struct: [id], [state], [sock] (four
    bytes each, little-endian) and [recvbuf[0..2]].

    The model is that of a live index, the only kind the source passes:
    every call site takes the index from a loop over
    [0 .. num_connections).  On an index at or past [num_connections]
    the count would wrap to about 2^32 and the copy would leave the
    table; nothing below is claimed about such a call. *)

Definition struct_head (c : Connection) : list byte :=
  int_bytes (id c) ++ int_bytes (state c) ++ int_bytes (sock c)
  ++ mem_read (recvbuf c) 0 3.

Definition copy_struct_bytes (n : nat) (src dst : Connection)
  : Connection :=
  if (n =? 0)%nat then dst
  else
    let b := take n (struct_head src) ++ drop n (struct_head dst) in
    set_recvbuf (mem_write (recvbuf dst) 0 (mem_read b 12 (n - 12)))
      (set_sock (int_of_bytes (mem_read b 8 4))
         (set_state (int_of_bytes (mem_read b 4 4))
            (set_id (int_of_bytes (mem_read b 0 4)) dst))).

Definition connection_close (idx : nat) : M unit :=
  let* c := connection idx in
  do emit (Closesocket (sock c)) then
  do update idx (set_sock INVALID_SOCKET) then
  do match process c with
     | Some p =>
         do emit (TerminateProcess p) then
         do emit (CloseHandle p) then
         update idx (set_process None)
     | None => ret tt
     end then
  do update idx (set_stdin_pipe None) then
  do update idx (set_stderr_pipe None) then
  do update idx (set_stdout_pipe None) then
  do update idx (set_working_directory None) then
  do update idx (set_command_line None) then
  do update idx (set_application_path None) then
  do emit (ConnectionClosed idx) then
  let* s := get in
  let count := size_t (num_connections s - Z.of_nat idx - 1) in
  do update idx
       (copy_struct_bytes (Z.to_nat count) (connection_at s (idx + 1))) then
  modify (with_num_connections (size_t (num_connections s - 1))).

(** ** connection_flush *)

Definition connection_flush (idx : nat) (env : SendResult) : M bool :=
  let* c := connection idx in
  let* ok :=
    (if 0 <? sendbuf_used c then
       match env with
       | SendTakes n =>
           let write_result := Z.min (Z.of_nat n) (sendbuf_used c) in
           do update idx
                (set_sendbuf
                   (memmove (sendbuf c) 0 (Z.to_nat write_result)
                      (Z.to_nat (sendbuf_used c - write_result)))) then
           do update idx
                (set_sendbuf_used (sendbuf_used c - write_result)) then
           ret true
       | SendFails error =>
           if negb (error =? WSAEWOULDBLOCK) then
             do connection_close idx then ret false
           else ret true
       end
     else ret true) in
  if ok then
    let* c := connection idx in
    if (sendbuf_used c =? 0) && (state c =? CS_CLOSING) then
      do connection_close idx then ret false
    else ret true
  else ret false.

(** ** connection_write: the encoder *)

(** The header the struct stores write, followed by the payload the
    [memcpy] appends: command byte, [payload_length] as a packed
    little-endian [uint16_t], payload. *)
Definition frame_bytes (cmd : byte) (payload : list byte) : list byte :=
  cmd :: uint16_bytes (int (Z.of_nat (length payload))) ++ payload.

Definition connection_write (idx : nat) (cmd : byte) (payload : list byte)
  (env : SendResult) : M bool :=
  let payload_length := int (Z.of_nat (length payload)) in
  if 65535 <? payload_length then crash AssertionFailed
  else
    let* c := connection idx in
    let sendbuf_available := SENDBUF_SIZE - sendbuf_used c in
    if size_t sendbuf_available
         <? size_t (sizeof_MessageHeader + payload_length) then
      do connection_close idx then ret false
    else
      do update idx
           (set_sendbuf
              (mem_write (sendbuf c) (Z.to_nat (sendbuf_used c))
                 (frame_bytes cmd payload))) then
      do update idx
           (set_sendbuf_used
              (sendbuf_used c + sizeof_MessageHeader + payload_length)) then
      do emit (Queued idx cmd payload) then
      connection_flush idx env.

(** ** connection_read: the parser and the inbound commands *)

Record Frame := mkFrame {
  command : byte;           (* header->command *)
  payload_length : Z;       (* header->payload_length *)
  payload : list byte;      (* the bytes at header + 1 *)
  total_length : Z          (* sizeof(struct MessageHeader) + payload_length *)
}.

(** The head of the receive buffer seen through
    [struct MessageHeader *header] (the loop condition and the test on the
    payload length): a complete frame, or nothing yet. *)
Definition parse_frame (c : Connection) : option Frame :=
  if size_t (recvbuf_used c) >=? sizeof_MessageHeader then
    let payload_length :=
      uint16_of_bytes (cell (recvbuf c) 1) (cell (recvbuf c) 2) in
    if size_t (recvbuf_used c)
         >=? size_t (sizeof_MessageHeader + payload_length) then
      Some (mkFrame (cell (recvbuf c) 0) payload_length
              (mem_read (recvbuf c) 3 (Z.to_nat payload_length))
              (int (sizeof_MessageHeader + payload_length)))
    else None
  else None.

(** The [memmove] and the subtraction that drop a processed frame. *)
Definition drain_frame (total : Z) (c : Connection) : Connection :=
  set_recvbuf_used (recvbuf_used c - total)
    (set_recvbuf
       (memmove (recvbuf c) 0 (Z.to_nat total)
          (Z.to_nat (size_t (recvbuf_used c - total)))) c).

(** How a [case] of the switch is left: by [break], or by returning from
    [connection_read]. *)
Inductive SwitchExit :=
| Break
| Return (result : bool).

(** [pipe9x_create]: on success two fresh pipe ends. *)
Definition pipe9x_create (pipe_error : Z)
  : M (option (PipeReadHandle * PipeWriteHandle)) :=
  if pipe_error =? ERROR_SUCCESS then
    let* r := fresh_handle in
    let* w := fresh_handle in
    do emit (Pipe9xCreate r w) then
    ret (Some (r, w))
  else ret None.

Definition spawn_child (idx : nat) (env : FrameEnv)
  (stdin_read : PipeReadHandle) (stdin_write : PipeWriteHandle)
  (stdout_read : PipeReadHandle) (stdout_write : PipeWriteHandle)
  (stderr_read : PipeReadHandle) (stderr_write : PipeWriteHandle)
  : M SwitchExit :=
  let* c := connection idx in
  match application_path c with
  | None => crash NullDereference          (* strchr(NULL, '\\') *)
  | Some path =>
      let application_path :=
        if negb (strchr path "\") && file_missing env then
          match path_found env with
          | Some found => found
          | None => path
          end
        else path in
      if process_created env then
        let* hProcess := fresh_handle in
        let* hThread := fresh_handle in
        do emit (Spawned idx hProcess (c_str application_path)
                   (command_line c) (working_directory c)
                   stdin_read stdout_write stderr_write) then
        do emit (Pipe9xReadClose stdin_read) then
        do emit (Pipe9xWriteClose (Some stdout_write)) then
        do emit (Pipe9xWriteClose (Some stderr_write)) then
        do emit (CloseHandle hThread) then
        do update idx (set_process (Some hProcess)) then
        do update idx (set_stdin_pipe (Some stdin_write)) then
        do update idx (set_stdout_pipe (Some stdout_read)) then
        do update idx (set_stderr_pipe (Some stderr_read)) then
        do emit (Pipe9xReadInitiate stdout_read) then
        if negb (stdout_initiate env =? ERROR_IO_PENDING) then crash Aborted
        else
          do emit (Pipe9xReadInitiate stderr_read) then
          if negb (stderr_initiate env =? ERROR_IO_PENDING) then
            crash Aborted
          else ret Break
      else
        do connection_close idx then ret (Return false)
  end.

(** [case 'E'] *)
Definition execute (idx : nat) (env : FrameEnv) : M SwitchExit :=
  let* p_stdin := pipe9x_create (stdin_pipe_error env) in
  match p_stdin with
  | None => do connection_close idx then ret (Return false)
  | Some (stdin_read, stdin_write) =>
      let* p_stdout := pipe9x_create (stdout_pipe_error env) in
      match p_stdout with
      | None =>
          do emit (Pipe9xWriteClose (Some stdin_write)) then
          do emit (Pipe9xReadClose stdin_read) then
          do connection_close idx then ret (Return false)
      | Some (stdout_read, stdout_write) =>
          let* p_stderr := pipe9x_create (stderr_pipe_error env) in
          match p_stderr with
          | None =>
              do emit (Pipe9xWriteClose (Some stdout_write)) then
              do emit (Pipe9xReadClose stdout_read) then
              do emit (Pipe9xWriteClose (Some stdin_write)) then
              do emit (Pipe9xReadClose stdin_read) then
              do connection_close idx then ret (Return false)
          | Some (stderr_read, stderr_write) =>
              spawn_child idx env stdin_read stdin_write
                stdout_read stdout_write stderr_read stderr_write
          end
      end
  end.

(** [case 'I'] *)
Definition write_stdin (idx : nat) (f : Frame) (env : FrameEnv)
  : M SwitchExit :=
  let* c := connection idx in
  if payload_length f =? 0 then
    do emit (Pipe9xWriteClose (stdin_pipe c)) then
    do update idx (set_stdin_pipe None) then
    ret Break
  else
    match stdin_pipe c with
    | Some h =>
        if write_pending env then
          ret (Return true)       (* stall until the write completes *)
        else
          do emit (Pipe9xWriteInitiate h (payload f)) then
          if negb (write_initiate env =? ERROR_IO_PENDING) then
            do connection_close idx then ret (Return false)
          else ret Break
    | None => ret Break
    end.

Definition stored (idx : nat)
  (dst : option (list byte) -> Connection -> Connection)
  (f : Frame) (env : FrameEnv) : M SwitchExit :=
  let* ok := store_string idx dst (payload f) env in
  if ok then ret Break
  else do connection_close idx then ret (Return false).

(** [switch(header->command)] *)
Definition handle_command (idx : nat) (f : Frame) (env : FrameEnv)
  : M SwitchExit :=
  if Byte.eqb (command f) "A" then
    stored idx set_application_path f env
  else if Byte.eqb (command f) "C" then
    stored idx set_command_line f env
  else if Byte.eqb (command f) "W" then
    stored idx set_working_directory f env
  else if Byte.eqb (command f) "E" then
    execute idx env
  else if Byte.eqb (command f) "I" then
    write_stdin idx f env
  else
    do connection_close idx then ret (Return false).

(** The [while] loop over the receive buffer; [n] counts the frames
    already handled in this call. *)
Fixpoint read_frames (fuel : nat) (idx : nat) (env : nat -> FrameEnv)
  (n : nat) : M bool :=
  match fuel with
  | O => crash OutOfFuel
  | S fuel' =>
      let* c := connection idx in
      match parse_frame c with
      | None => ret true
      | Some f =>
          let* exit := handle_command idx f (env n) in
          match exit with
          | Return result => ret result
          | Break =>
              do update idx (drain_frame (total_length f)) then
              read_frames fuel' idx env (S n)
          end
      end
  end.

Definition connection_read (idx : nat) (rcv : RecvResult)
  (env : nat -> FrameEnv) : M bool :=
  let* c := connection idx in
  if recvbuf_used c =? RECVBUF_SIZE then ret true
  else
    match rcv with
    | RecvFails error =>
        if error =? WSAEWOULDBLOCK then ret true
        else do connection_close idx then ret false
    | RecvHas available =>
        let data :=
          take (Z.to_nat (RECVBUF_SIZE - recvbuf_used c)) available in
        let read_bytes := Z.of_nat (length data) in
        if read_bytes <=? 0 then
          do connection_close idx then ret false
        else
          do update idx
               (set_recvbuf
                  (mem_write (recvbuf c) (Z.to_nat (recvbuf_used c))
                     data)) then
          do update idx (set_recvbuf_used (recvbuf_used c + read_bytes)) then
          read_frames (S (Z.to_nat (recvbuf_used c + read_bytes))) idx env 0
    end.

(** ** pipe_read *)

(** The field of the session [PipeReadHandle *pipe9x_handle] points to. *)
Inductive OutputPipe := Stdout | Stderr.

Definition output_pipe (which : OutputPipe) (c : Connection)
  : option PipeReadHandle :=
  match which with
  | Stdout => stdout_pipe c
  | Stderr => stderr_pipe c
  end.

Definition set_output_pipe (which : OutputPipe)
  (v : option PipeReadHandle) (c : Connection) : Connection :=
  match which with
  | Stdout => set_stdout_pipe v c
  | Stderr => set_stderr_pipe v c
  end.

(** The code from the label [HANDLE_EOF] to the end of the function:
    [error] is [ERROR_BROKEN_PIPE] there, so nothing follows the write. *)
Definition handle_eof (idx : nat) (which : OutputPipe) (cmd : byte)
  (h : PipeReadHandle) (env : SendResult) : M unit :=
  do emit (Pipe9xReadClose h) then
  do update idx (set_output_pipe which None) then
  let* _ := connection_write idx cmd [] env in
  ret tt.

(** [pipe9x_read_initiate] followed by the test of its result. *)
Definition rearm (idx : nat) (which : OutputPipe) (cmd : byte)
  (h : PipeReadHandle) (error : Z) (env : SendResult) : M unit :=
  do emit (Pipe9xReadInitiate h) then
  if error =? ERROR_BROKEN_PIPE then handle_eof idx which cmd h env
  else if negb (error =? ERROR_IO_PENDING) then crash Aborted
  else ret tt.

Definition pipe_read (idx : nat) (which : OutputPipe) (cmd : byte)
  (env : PipeEnv) : M unit :=
  let* c := connection idx in
  match output_pipe which c with
  | None => crash NullDereference
  | Some h =>
      if read_error env =? ERROR_SUCCESS then
        if Z.of_nat (length (read_data env)) =? 0 then
          rearm idx which cmd h (read_initiate env) (first_send env)
        else
          let* ok :=
            connection_write idx cmd (read_data env) (first_send env) in
          if ok then
            rearm idx which cmd h (read_initiate env) (second_send env)
          else ret tt
      else if read_error env =? ERROR_BROKEN_PIPE then
        handle_eof idx which cmd h (first_send env)
      else
        connection_close idx
  end.

(** ** process_exit *)

Definition process_exit (idx : nat) (code : Z) (env : SendResult)
  : M unit :=
  let* c := connection idx in
  do match process c with
     | Some p => emit (CloseHandle p)
     | None => ret tt
     end then
  do update idx (set_process None) then
  let exit_code_i := int code in
  do update idx (set_state CS_CLOSING) then
  let* _ := connection_write idx "X" (int_bytes exit_code_i) env in
  ret tt.

(** ** main: assembling the wait set *)

(** The objects [WaitForMultipleObjects] waits on.  Open kernel objects
    have distinct handles, and every pipe end has an event of its own:
    an entry is identified by what it is the handle of. *)
Inductive WaitHandle :=
| wsevent
| pipe9x_read_event (h : PipeReadHandle)
| pipe9x_write_event (h : PipeWriteHandle)
| process_handle (p : HANDLE).

Definition WaitHandle_eqb (a b : WaitHandle) : bool :=
  match a, b with
  | wsevent, wsevent => true
  | pipe9x_read_event h, pipe9x_read_event h' => h =? h'
  | pipe9x_write_event h, pipe9x_write_event h' => h =? h'
  | process_handle p, process_handle p' => p =? p'
  | _, _ => false
  end.

(** The handles the body of the [for] loop stores for one session. *)
Definition session_wait_handles (pending : PipeWriteHandle -> bool)
  (c : Connection) : list WaitHandle :=
  let sendbuf_available := SENDBUF_SIZE - sendbuf_used c in
  (if size_t sendbuf_available
        >=? size_t (sizeof_MessageHeader + PIPE_READ_SIZE) then
     match stdout_pipe c with
     | Some h => [pipe9x_read_event h]
     | None => []
     end ++
     match stderr_pipe c with
     | Some h => [pipe9x_read_event h]
     | None => []
     end
   else [])
  ++
  (if size_t sendbuf_available
        >=? size_t (sizeof_MessageHeader + sizeof_int32_t) then
     match stdout_pipe c, stderr_pipe c, process c with
     | None, None, Some p => [process_handle p]
     | _, _, _ => []
     end
   else [])
  ++
  match stdin_pipe c with
  | Some h => if pending h then [pipe9x_write_event h] else []
  | None => []
  end.

(** [wait_handles[0 .. num_wait_handles)] once the [for] loop is done. *)
Definition wait_handles (pending : PipeWriteHandle -> bool) (s : Server)
  : list WaitHandle :=
  wsevent ::
  flat_map (fun i => session_wait_handles pending (connection_at s i))
    (seq 0 (Z.to_nat (num_connections s))).

(** The capacity of the array: [1 + MAX_CONNECTIONS * 3]. *)
Definition wait_handles_capacity : Z := 1 + MAX_CONNECTIONS * 3.

(** ** main: dispatch *)

(** The loop run when the socket event fired:
    [for(int i = 0; i < num_connections;)
       if(connection_flush(i) && connection_read(i)) ++i;]
    [k] counts the passes. *)
Fixpoint service_sockets (fuel : nat) (i k : nat)
  (env : nat -> SocketEnv) : M unit :=
  match fuel with
  | O => crash OutOfFuel
  | S fuel' =>
      let* s := get in
      if size_t (Z.of_nat i) <? num_connections s then
        let* flushed := connection_flush i (flush_send (env k)) in
        if flushed then
          let* read :=
            connection_read i (read_recv (env k)) (frame_env (env k)) in
          if read then service_sockets fuel' (S i) (S k) env
          else service_sockets fuel' i (S k) env
        else service_sockets fuel' i (S k) env
      else ret tt
  end.

(** The loop that looks for the owner of the handle that woke the
    server; [n] bounds the sessions left to look at. *)
Fixpoint dispatch_handle (n : nat) (i : nat) (woke_handle : WaitHandle)
  (env : LoopEnv) : M unit :=
  match n with
  | O => ret tt
  | S n' =>
      let* c := connection i in
      if match stdout_pipe c with
         | Some h => WaitHandle_eqb woke_handle (pipe9x_read_event h)
         | None => false
         end
      then pipe_read i Stdout "O" (pipe_env env)
      else if match stderr_pipe c with
              | Some h => WaitHandle_eqb woke_handle (pipe9x_read_event h)
              | None => false
              end
      then pipe_read i Stderr "E" (pipe_env env)
      else if match stdin_pipe c with
              | Some h => WaitHandle_eqb woke_handle (pipe9x_write_event h)
              | None => false
              end
      then
        if negb (write_result env =? ERROR_SUCCESS) then connection_close i
        else ret tt
      else if match process c with
              | Some p => WaitHandle_eqb woke_handle (process_handle p)
              | None => false
              end
      then process_exit i (exit_code env) (exit_send env)
      else dispatch_handle n' (S i) woke_handle env
  end.

(** One iteration of [while(TRUE)]. *)
Definition main_iteration (env : LoopEnv) : M unit :=
  let* s := get in
  let handles := wait_handles (pending env) s in
  let num_wait_handles := Z.of_nat (length handles) in
  if wait_result env =? WAIT_FAILED then crash Exited
  else if wait_result env =? WAIT_OBJECT_0 then
    do match accepted env with
       | Some newsock => connection_init newsock
       | None => ret tt
       end then
    let* s := get in
    service_sockets (S (Z.to_nat (num_connections s))) 0 0 (socket_env env)
  else if negb (WAIT_OBJECT_0 <? wait_result env) then
    crash AssertionFailed
  else if negb (wait_result env <? WAIT_OBJECT_0 + num_wait_handles) then
    crash AssertionFailed
  else
    match handles !! Z.to_nat (wait_result env - WAIT_OBJECT_0) with
    | Some woke_handle =>
        dispatch_handle (Z.to_nat (num_connections s)) 0 woke_handle env
    | None => crash AssertionFailed
    end.

(** The loop of [main], one environment per iteration. *)
Fixpoint main_loop (envs : list LoopEnv) : M unit :=
  match envs with
  | [] => ret tt
  | env :: rest => do main_iteration env then main_loop rest
  end.

(** ** Vocabulary of the properties *)

(** Invariant 4 of the data model, for the receive buffer. *)
Definition recvbuf_ok (c : Connection) : Prop :=
  0 <= recvbuf_used c <= RECVBUF_SIZE.

(** [header->payload_length], read from bytes 1 and 2 of the buffer. *)
Definition head_payload_length (c : Connection) : Z :=
  uint16_of_bytes (cell (recvbuf c) 1) (cell (recvbuf c) 2).


(** The static table has [MAX_CONNECTIONS] entries. *)
Definition table_ok (s : Server) : Prop :=
  length (connections s) = Z.to_nat MAX_CONNECTIONS.

(** Invariant 4 of the data model, for the send buffer. *)
Definition sendbuf_ok (c : Connection) : Prop :=
  0 <= sendbuf_used c <= SENDBUF_SIZE.

(** Spare bytes in the send buffer: [sendbuf_available] in [main]. *)
Definition sendbuf_spare (c : Connection) : Z :=
  SENDBUF_SIZE - sendbuf_used c.

Definition would_block : SendResult := SendFails WSAEWOULDBLOCK.

(** Every call made while a frame is processed succeeds; [pending] is
    what [pipe9x_write_pending] answers. *)
Definition frame_succeeds (pending : bool) : FrameEnv :=
  mkFrameEnv true ERROR_SUCCESS ERROR_SUCCESS ERROR_SUCCESS false None true
    ERROR_IO_PENDING ERROR_IO_PENDING pending ERROR_IO_PENDING.

(** A pipe read that completes with [data] ([error] as given) and is
    re-armed; the client does not read, so [send] would block. *)
Definition pipe_completes (error : Z) (data : list byte) : PipeEnv :=
  mkPipeEnv error data ERROR_IO_PENDING would_block would_block.

(** The socket event fires: [newsock] is accepted, the pass numbered [k]
    of the socket loop receives [rcv k], the client takes nothing. *)
Definition socket_fires (newsock : option Z) (rcv : nat -> RecvResult)
  (frames : nat -> FrameEnv) : LoopEnv :=
  mkLoopEnv (fun _ => false) WAIT_OBJECT_0 newsock
    (fun k => mkSocketEnv would_block (rcv k) frames)
    (pipe_completes ERROR_BROKEN_PIPE []) ERROR_SUCCESS 0 would_block.

(** The handle at [index] of the wait set fires. *)
Definition handle_fires (index : Z) (writing : PipeWriteHandle -> bool)
  (pipe : PipeEnv) (code : Z) : LoopEnv :=
  mkLoopEnv writing index None
    (fun _ => mkSocketEnv would_block (RecvFails WSAEWOULDBLOCK)
                (fun _ => frame_succeeds false))
    pipe ERROR_SUCCESS code would_block.

Definition server_after (envs : list LoopEnv) : Server :=
  match main_loop envs initial_server with
  | Ok _ s => s
  | Crash _ => initial_server
  end.

(** A client connects and sends [A "a"], [E]. *)
Definition client_executes : LoopEnv :=
  socket_fires (Some 100)
    (fun _ => RecvHas ["A"; x01; x00; "a"; "E"; x00; x00]%byte)
    (fun _ => frame_succeeds false).

Definition running_server : Server :=
  Eval vm_compute in server_after [client_executes].

(** A second client connects to [running_server] and stays silent, as
    does the first. *)
Definition second_client_connects : LoopEnv :=
  socket_fires (Some 200) (fun _ => RecvFails WSAEWOULDBLOCK)
    (fun _ => frame_succeeds false).

(** Two clients connect in turn; the second sends [A "a"], [E]. *)
Definition first_client_connects : LoopEnv :=
  socket_fires (Some 100) (fun _ => RecvFails WSAEWOULDBLOCK)
    (fun _ => frame_succeeds false).

Definition second_client_executes : LoopEnv :=
  socket_fires (Some 200)
    (fun k => match k with
              | O => RecvFails WSAEWOULDBLOCK
              | S _ => RecvHas ["A"; x01; x00; "a"; "E"; x00; x00]%byte
              end)
    (fun _ => frame_succeeds false).

Definition two_sessions : Server :=
  Eval vm_compute in
    server_after [first_client_connects; second_client_executes].

(** What [connection_close] on session [c] at slot [idx] adds to the
    trace (newest first). *)
Definition closing_actions (idx : nat) (c : Connection) : list Action :=
  ConnectionClosed idx ::
  match process c with
  | Some p => [CloseHandle p; TerminateProcess p]
  | None => []
  end ++ [Closesocket (sock c)].

(** Pipe ends a stretch of the trace creates, and those it closes. *)
Fixpoint pipe_ends_created (tr : list Action) : list Z :=
  match tr with
  | [] => []
  | Pipe9xCreate r w :: rest => r :: w :: pipe_ends_created rest
  | _ :: rest => pipe_ends_created rest
  end.

Fixpoint pipe_ends_closed (tr : list Action) : list Z :=
  match tr with
  | [] => []
  | Pipe9xReadClose h :: rest => h :: pipe_ends_closed rest
  | Pipe9xWriteClose (Some h) :: rest => h :: pipe_ends_closed rest
  | _ :: rest => pipe_ends_closed rest
  end.

Definition is_spawn (a : Action) : bool :=
  match a with
  | Spawned _ _ _ _ _ _ _ _ => true
  | _ => false
  end.

(** One of the three [pipe9x_create] calls reports an error. *)
Definition pipe_creation_fails (env : FrameEnv) : Prop :=
  stdin_pipe_error env <> ERROR_SUCCESS \/
  stdout_pipe_error env <> ERROR_SUCCESS \/
  stderr_pipe_error env <> ERROR_SUCCESS.

(** One client is connected and has sent nothing. *)
Definition connected_server : Server :=
  Eval vm_compute in server_after [first_client_connects].

(** The second of the three pipe creations fails with error 8. *)
Definition stdout_pipe_fails : FrameEnv :=
  mkFrameEnv true ERROR_SUCCESS 8 ERROR_SUCCESS false None true
    ERROR_IO_PENDING ERROR_IO_PENDING false ERROR_IO_PENDING.

(** A client connects and sends [A "a"], [E], [I "ab"], [I "cd"] in one
    segment; the write of "ab" is still in flight when the second [I]
    frame is reached. *)
Definition client_writes_twice : LoopEnv :=
  socket_fires (Some 100)
    (fun _ => RecvHas ["A"; x01; x00; "a"; "E"; x00; x00;
                       "I"; x02; x00; "a"; "b";
                       "I"; x02; x00; "c"; "d"]%byte)
    (fun n => frame_succeeds (3 <=? n)%nat).

Definition stalled_server : Server :=
  Eval vm_compute in server_after [client_writes_twice].

(** The write on the child's stdin completes successfully: the handle at
    index 3 of the wait set, the stdin write event, fires. *)
Definition write_completes : LoopEnv :=
  handle_fires 3 (fun _ => true) (pipe_completes ERROR_SUCCESS []) 0.

(** The socket event fires with nothing new to read. *)
Definition nothing_arrives : LoopEnv :=
  socket_fires None (fun _ => RecvFails WSAEWOULDBLOCK)
    (fun _ => frame_succeeds false).

(** Commands of the frames queued on a slot since [connection_init] last
    took the slot, oldest first. *)
Fixpoint frames_queued (slot : nat) (tr : list Action) : list byte :=
  match tr with
  | [] => []
  | Accepted i _ :: rest =>
      if (i =? slot)%nat then [] else frames_queued slot rest
  | Queued i cmd _ :: rest =>
      if (i =? slot)%nat then frames_queued slot rest ++ [cmd]
      else frames_queued slot rest
  | _ :: rest => frames_queued slot rest
  end.

(** Children spawned on a slot since [connection_init] last took it. *)
Fixpoint children_spawned (slot : nat) (tr : list Action) : nat :=
  match tr with
  | [] => 0
  | Accepted i _ :: rest =>
      if (i =? slot)%nat then 0%nat else children_spawned slot rest
  | Spawned i _ _ _ _ _ _ _ :: rest =>
      if (i =? slot)%nat then S (children_spawned slot rest)
      else children_spawned slot rest
  | _ :: rest => children_spawned slot rest
  end.

(** The exit frame is queued at most once and no output frame follows
    it. *)
Definition exit_frame_once_and_last (sent : list byte) : Prop :=
  (count_occ Byte.byte_eq_dec sent "X"%byte <= 1)%nat /\
  forall before after,
    sent = before ++ "X"%byte :: after ->
    ~ In "O"%byte after /\ ~ In "E"%byte after.

(** Nothing at all follows an exit frame. *)
Definition exit_frame_ends (sent : list byte) : Prop :=
  forall before after, sent = before ++ "X"%byte :: after -> after = [].

(** The session has no child, no stdout pipe and no stderr pipe. *)
Definition idle (c : Connection) : Prop :=
  process c = None /\ stdout_pipe c = None /\ stderr_pipe c = None.

(** A slot whose one child, if it had one, has had its exit frame
    queued. *)
Definition settled (tr : list Action) (i : nat) : Prop :=
  (children_spawned i tr <= 1)%nat /\
  (children_spawned i tr = 0%nat \/ In "X"%byte (frames_queued i tr)).

Definition frames_ok (tr : list Action) (i : nat) : Prop :=
  (children_spawned i tr = 0%nat -> frames_queued i tr = []) /\
  ((children_spawned i tr <= 1)%nat -> exit_frame_ends (frames_queued i tr)).

(** The invariant of the event loop. *)
Record Inv (s : Server) : Prop := mkInv {
  inv_table : table_ok s;
  inv_count : 0 <= num_connections s <= MAX_CONNECTIONS;
  inv_frames : forall i, frames_ok (trace s) i;
  inv_idle :
    forall i, Z.of_nat i < num_connections s ->
              settled (trace s) i -> idle (connection_at s i);
  inv_fresh :
    forall i p, Z.of_nat i < num_connections s ->
                process (connection_at s i) = Some p -> p < next_handle s;
  inv_distinct :
    forall i j p, Z.of_nat i < num_connections s ->
                  Z.of_nat j < num_connections s ->
                  process (connection_at s i) = Some p ->
                  process (connection_at s j) = Some p -> i = j
}.

(** Actions that neither take a slot, nor queue a frame, nor spawn. *)
Definition quiet (a : Action) : Prop :=
  match a with
  | Accepted _ _ => False
  | Queued _ _ _ => False
  | Spawned _ _ _ _ _ _ _ _ => False
  | _ => True
  end.

(** A field update that leaves the child and the output pipes as they
    are, or clears them. *)
Definition clears (f : Connection -> Connection) : Prop :=
  forall c,
    (process (f c) = process c \/ process (f c) = None) /\
    (stdout_pipe (f c) = stdout_pipe c \/ stdout_pipe (f c) = None) /\
    (stderr_pipe (f c) = stderr_pipe c \/ stderr_pipe (f c) = None).

(** A field update that leaves the child as it is, or clears it. *)
Definition keeps_process (f : Connection -> Connection) : Prop :=
  forall c, process (f c) = process c \/ process (f c) = None.

(** Postcondition of a run: faults end the server and satisfy any. *)
Definition post {A : Type} (o : Outcome A) (Q : A -> Server -> Prop)
  : Prop :=
  match o with
  | Ok a s => Q a s
  | Crash _ => True
  end.

(** The outcome of a case of the switch, in terms of the invariant: the
    session is still there unless the case returned [false]. *)
Definition case_post (s : Server) (exit : SwitchExit) (s' : Server) : Prop :=
  Inv s' /\ (exit <> Return false -> num_connections s' = num_connections s).

(** What a call on a session leaves: the invariant, and the session
    still in the table if the call returned [true]. *)
Definition call_post (s : Server) (result : bool) (s' : Server) : Prop :=
  Inv s' /\ (result = true -> num_connections s' = num_connections s).

(** What the wait set guarantees about a process handle in it. *)
Definition process_gate (s : Server) (woke_handle : WaitHandle) : Prop :=
  forall p, woke_handle = process_handle p ->
    exists j, Z.of_nat j < num_connections s /\
              process (connection_at s j) = Some p /\
              stdout_pipe (connection_at s j) = None /\
              stderr_pipe (connection_at s j) = None.

(** The child of [running_server] closes its stdout, then its stderr,
    then exits with code 7; the client takes nothing meanwhile. *)
Definition output_closes : LoopEnv :=
  handle_fires 1 (fun _ => false) (pipe_completes ERROR_BROKEN_PIPE []) 0.

Definition child_exits : LoopEnv :=
  handle_fires 1 (fun _ => false) (pipe_completes ERROR_BROKEN_PIPE []) 7.

Definition session_to_exit : list LoopEnv :=
  [client_executes; output_closes; output_closes; child_exits].

(** The client then sends a second [E], and the new child writes "x". *)
Definition client_executes_again : LoopEnv :=
  socket_fires None (fun _ => RecvHas ["E"; x00; x00]%byte)
    (fun _ => frame_succeeds false).

Definition child_writes : LoopEnv :=
  handle_fires 1 (fun _ => false)
    (pipe_completes ERROR_SUCCESS ["x"%byte]) 0.

Definition session_executes_twice : list LoopEnv :=
  session_to_exit ++ [client_executes_again; child_writes].

(** The send buffer of the session of [running_server] is full: the
    client has not read for long. *)
Definition congested_server : Server :=
  Eval vm_compute in
    assign 0 (set_sendbuf_used SENDBUF_SIZE) running_server.



(** The fill levels of both buffers of every slot are within the
    arrays. *)
Record Bounded (s : Server) : Prop := mkBounded {
  bounded_table : table_ok s;
  bounded_count : 0 <= num_connections s <= MAX_CONNECTIONS;
  bounded_recv : forall i, recvbuf_ok (connection_at s i);
  bounded_send : forall i, sendbuf_ok (connection_at s i)
}.

(** A field update that leaves both fill levels alone. *)
Definition keeps_levels (f : Connection -> Connection) : Prop :=
  forall c, recvbuf_used (f c) = recvbuf_used c /\
            sendbuf_used (f c) = sendbuf_used c.

(** Postcondition of a run whose loops end: the run returns in a state
    that satisfies [Q], or stops on a fault of the program. *)
Definition ends {A : Type} (o : Outcome A) (Q : A -> Server -> Prop)
  : Prop :=
  match o with
  | Ok a s => Q a s
  | Crash f => f <> OutOfFuel
  end.

(** What a call on a session leaves: the bounds, and a table one session
    shorter exactly when the call returned [false]. *)
Definition ends_post (s : Server) (result : bool) (s' : Server) : Prop :=
  Bounded s' /\
  num_connections s' =
  if result then num_connections s else num_connections s - 1.

(** The same for a case of the switch; a case left by [break] or by the
    stall has not touched the fill level of the receive buffer. *)
Definition ends_case (idx : nat) (s : Server) (exit : SwitchExit)
  (s' : Server) : Prop :=
  Bounded s' /\
  match exit with
  | Return false => num_connections s' = num_connections s - 1
  | _ => num_connections s' = num_connections s /\
         recvbuf_used (connection_at s' idx)
         = recvbuf_used (connection_at s idx)
  end.

(** The state an outcome ends in, [s] if it is a fault. *)
Definition state_of {A : Type} (o : Outcome A) (s : Server) : Server :=
  match o with
  | Ok _ s' => s'
  | Crash _ => s
  end.

(** The head of the receive buffer of slot [idx] is a frame the loop
    stalls on: a non-empty [I] frame for a stdin pipe. *)
Definition stalled_on_stdin (idx : nat) (s : Server) : Prop :=
  exists f h,
    parse_frame (connection_at s idx) = Some f /\
    command f = "I"%byte /\ payload_length f <> 0 /\
    stdin_pipe (connection_at s idx) = Some h.

(** * Properties *)

(** ** Machine integers and bytes *)

Lemma size_t_small (x : Z) : 0 <= x < 2 ^ 32 -> size_t x = x.
Proof. intros H. unfold size_t. apply Z.mod_small. exact H. Qed.

Lemma int_small (x : Z) : - 2 ^ 31 <= x < 2 ^ 31 -> int x = x.
Proof.
  intros H. unfold int. rewrite Z.mod_small; lia.
Qed.

Lemma Z_of_byte_range (b : byte) : 0 <= Z_of_byte b < 256.
Proof.
  unfold Z_of_byte. pose proof (Byte.to_N_bounded b). lia.
Qed.

Lemma Z_of_byte_of_Z (z : Z) : Z_of_byte (byte_of_Z z) = z mod 256.
Proof.
  unfold Z_of_byte, byte_of_Z.
  assert (Hr : 0 <= z mod 256 < 256) by (apply Z.mod_pos_bound; lia).
  destruct (Byte.of_N (Z.to_N (z mod 256))) as [y|] eqn:E.
  - apply Byte.to_of_N in E. simpl. rewrite E. lia.
  - apply Byte.of_N_None_iff in E. lia.
Qed.

Lemma byte_of_Z_of_byte (b : byte) : byte_of_Z (Z_of_byte b) = b.
Proof.
  unfold byte_of_Z, Z_of_byte.
  pose proof (Byte.to_N_bounded b) as Hb.
  rewrite Z.mod_small by lia.
  rewrite N2Z.id, Byte.of_to_N. reflexivity.
Qed.

Lemma uint16_of_bytes_range (lo hi : byte) :
  0 <= uint16_of_bytes lo hi <= 65535.
Proof.
  unfold uint16_of_bytes.
  pose proof (Z_of_byte_range lo). pose proof (Z_of_byte_range hi). lia.
Qed.


(** ** Buffers *)

Lemma length_mem_read (buf : list byte) (off len : nat) :
  length (mem_read buf off len) = len.
Proof. unfold mem_read. rewrite length_map, length_seq. reflexivity. Qed.

Lemma cell_app_l (l1 l2 : list byte) (i : nat) :
  (i < length l1)%nat -> cell (l1 ++ l2) i = cell l1 i.
Proof. intros H. unfold cell. apply app_nth1. exact H. Qed.

Lemma cell_app_r (l1 l2 : list byte) (i : nat) :
  cell (l1 ++ l2) (length l1 + i) = cell l2 i.
Proof.
  unfold cell. rewrite app_nth2 by lia. f_equal. lia.
Qed.

Lemma mem_read_cells (buf buf' : list byte) (off off' len : nat) :
  (forall i, (i < len)%nat -> cell buf (off + i) = cell buf' (off' + i)) ->
  mem_read buf off len = mem_read buf' off' len.
Proof.
  revert off off'. induction len as [|len IH]; intros off off' H.
  - reflexivity.
  - unfold mem_read in *. simpl. f_equal.
    + specialize (H 0%nat). rewrite !Nat.add_0_r in H. apply H. lia.
    + apply IH. intros i Hi. specialize (H (S i)).
      rewrite !Nat.add_succ_r in H. apply H. lia.
Qed.

Lemma mem_read_exact (l rest : list byte) :
  mem_read (l ++ rest) 0 (length l) = l.
Proof.
  revert rest. induction l as [|a l IH]; intros rest.
  - reflexivity.
  - unfold mem_read in *. simpl. f_equal.
    rewrite <- seq_shift, map_map.
    specialize (IH rest). rewrite <- IH at 2.
    apply map_ext. intros i. reflexivity.
Qed.


Lemma cell_mem_read (buf : list byte) (off len i : nat) :
  (i < len)%nat -> cell (mem_read buf off len) i = cell buf (off + i).
Proof.
  intros H. unfold mem_read, cell at 1.
  rewrite (nth_indep _ x00 (cell buf 0%nat))
    by (rewrite length_map, length_seq; exact H).
  rewrite (map_nth (cell buf)). rewrite seq_nth by exact H. reflexivity.
Qed.

(** What a write leaves in the array: the data at [off], the old cells
    elsewhere. *)
Lemma cell_mem_write (buf : list byte) (off : nat) (data : list byte)
  (i : nat) :
  cell (mem_write buf off data) i =
  if (i <? off)%nat then cell buf i
  else if (i <? off + length data)%nat then cell data (i - off)
  else cell buf i.
Proof.
  unfold mem_write.
  destruct (i <? off)%nat eqn:E1.
  - apply Nat.ltb_lt in E1.
    rewrite cell_app_l by (rewrite length_mem_read; exact E1).
    rewrite cell_mem_read by exact E1. reflexivity.
  - apply Nat.ltb_ge in E1.
    replace i with (length (mem_read buf 0 off) + (i - off))%nat at 1
      by (rewrite length_mem_read; lia).
    rewrite cell_app_r.
    destruct (i <? off + length data)%nat eqn:E2.
    + apply Nat.ltb_lt in E2. apply cell_app_l. lia.
    + apply Nat.ltb_ge in E2.
      replace (i - off)%nat with (length data + (i - off - length data))%nat
        by lia.
      rewrite cell_app_r. unfold cell.
      rewrite nth_skipn. f_equal. lia.
Qed.

(** [memmove] to the head of a buffer brings the cells at [src] there. *)
Lemma mem_read_memmove_head (buf : list byte) (src n : nat) :
  mem_read (memmove buf 0 src n) 0 n = mem_read buf src n.
Proof.
  apply mem_read_cells. intros i Hi.
  unfold memmove. rewrite cell_mem_write, length_mem_read. simpl.
  apply Nat.ltb_lt in Hi as Hi'. rewrite Hi'.
  rewrite Nat.sub_0_r. apply cell_mem_read. exact Hi.
Qed.

(** ** The frame parser *)

Lemma head_payload_length_range (c : Connection) :
  0 <= head_payload_length c <= 65535.
Proof. apply uint16_of_bytes_range. Qed.

Lemma parse_frame_unfold (c : Connection) :
  recvbuf_ok c ->
  parse_frame c =
  if (3 <=? recvbuf_used c) && (3 + head_payload_length c <=? recvbuf_used c)
  then Some (mkFrame (cell (recvbuf c) 0) (head_payload_length c)
               (mem_read (recvbuf c) 3 (Z.to_nat (head_payload_length c)))
               (3 + head_payload_length c))
  else None.
Proof.
  intros Hok. unfold recvbuf_ok, RECVBUF_SIZE in Hok.
  pose proof (head_payload_length_range c) as Hp.
  unfold parse_frame, sizeof_MessageHeader.
  fold (head_payload_length c).
  rewrite (size_t_small (recvbuf_used c)) by lia.
  rewrite (size_t_small (3 + head_payload_length c)) by lia.
  rewrite (int_small (3 + head_payload_length c)) by lia.
  rewrite !Z.geb_leb.
  destruct (3 <=? recvbuf_used c); reflexivity.
Qed.





(** ** Encoding and parsing *)




(** ** The session table *)

Lemma connection_at_assign (idx j : nat) (f : Connection -> Connection)
  (s : Server) :
  (idx < length (connections s))%nat ->
  connection_at (assign idx f s) j =
  if decide (j = idx) then f (connection_at s idx) else connection_at s j.
Proof.
  intros H. unfold connection_at, assign. simpl.
  destruct (decide (j = idx)) as [->|Hne].
  - rewrite list_lookup_insert_eq by exact H. reflexivity.
  - rewrite list_lookup_insert_ne by congruence. reflexivity.
Qed.

Lemma length_assign (idx : nat) (f : Connection -> Connection)
  (s : Server) :
  length (connections (assign idx f s)) = length (connections s).
Proof. unfold assign. simpl. apply length_insert. Qed.

Lemma connection_at_record (a : Action) (s : Server) (j : nat) :
  connection_at (record a s) j = connection_at s j.
Proof. reflexivity. Qed.

Lemma connection_at_with_num_connections (n : Z) (s : Server) (j : nat) :
  connection_at (with_num_connections n s) j = connection_at s j.
Proof. reflexivity. Qed.

Lemma connection_at_with_next_connection_id (n : Z) (s : Server)
  (j : nat) :
  connection_at (with_next_connection_id n s) j = connection_at s j.
Proof. reflexivity. Qed.

Lemma connection_at_with_next_handle (n : Z) (s : Server) (j : nat) :
  connection_at (with_next_handle n s) j = connection_at s j.
Proof. reflexivity. Qed.

Ltac table_len :=
  repeat first
    [ rewrite length_assign | rewrite length_insert | progress simpl ];
  lia.

Lemma connection_at_assign_eq (idx : nat) (f : Connection -> Connection)
  (s : Server) :
  (idx < length (connections s))%nat ->
  connection_at (assign idx f s) idx = f (connection_at s idx).
Proof.
  intros H. rewrite connection_at_assign by exact H.
  apply decide_True. reflexivity.
Qed.

Lemma connection_at_assign_ne (idx j : nat) (f : Connection -> Connection)
  (s : Server) :
  j <> idx -> connection_at (assign idx f s) j = connection_at s j.
Proof.
  intros H. unfold connection_at, assign. simpl.
  rewrite list_lookup_insert_ne by congruence. reflexivity.
Qed.

Ltac table_simpl :=
  repeat first
    [ rewrite connection_at_record
    | rewrite connection_at_with_num_connections
    | rewrite connection_at_with_next_connection_id
    | rewrite connection_at_with_next_handle
    | rewrite connection_at_assign_eq by table_len
    | rewrite connection_at_assign_ne by (assumption || lia) ].

(** ** connection_init *)

(** C7.  With fewer than 16 live sessions an accepted socket becomes a
    session in state Setup at the first free slot, both buffers empty and
    every optional field absent, the live count goes up by one and the
    other slots are untouched; with 16 live sessions the socket is closed
    and neither the table nor the count changes. *)
Theorem connection_init_accepts_below_ceiling (newsock : Z) (s : Server) :
  table_ok s ->
  0 <= num_connections s <= MAX_CONNECTIONS ->
  (num_connections s < MAX_CONNECTIONS ->
   exists s',
     connection_init newsock s = Ok tt s' /\
     num_connections s' = num_connections s + 1 /\
     connection_at s' (Z.to_nat (num_connections s)) =
       mkConnection (next_connection_id s) CS_SETUP newsock
         (recvbuf (connection_at s (Z.to_nat (num_connections s)))) 0
         (sendbuf (connection_at s (Z.to_nat (num_connections s)))) 0
         None None None None None None None /\
     (forall j, j <> Z.to_nat (num_connections s) ->
                connection_at s' j = connection_at s j)) /\
  (num_connections s = MAX_CONNECTIONS ->
   exists s',
     connection_init newsock s = Ok tt s' /\
     trace s' = Closesocket newsock :: trace s /\
     connections s' = connections s /\
     num_connections s' = num_connections s /\
     next_connection_id s' = next_connection_id s).
Proof.
  intros Ht Hn. split.
  - intros Hlt. unfold connection_init, bind, get.
    replace (num_connections s =? MAX_CONNECTIONS) with false
      by (symmetry; apply Z.eqb_neq; lia).
    unfold update, emit, modify. simpl.
    unfold table_ok, MAX_CONNECTIONS in *.
    eexists. split; [reflexivity|]. split; [|split].
    + simpl. apply size_t_small. lia.
    + table_simpl. reflexivity.
    + intros j Hj. table_simpl. reflexivity.
  - intros Heq. unfold connection_init, bind, get.
    rewrite Heq. simpl. eexists. split; [reflexivity|].
    repeat split. exact Heq.
Qed.

(** The first connection of a fresh server. *)
Lemma connection_init_accepts_below_ceiling_witness :
  table_ok initial_server /\
  0 <= num_connections initial_server <= MAX_CONNECTIONS /\
  exists s',
    connection_init 100 initial_server = Ok tt s' /\
    num_connections s' = 1 /\
    state (connection_at s' 0) = CS_SETUP.
Proof.
  assert (Ht : table_ok initial_server) by reflexivity.
  assert (Hn : 0 <= num_connections initial_server <= MAX_CONNECTIONS)
    by (simpl; unfold MAX_CONNECTIONS; lia).
  split; [exact Ht|]. split; [exact Hn|].
  destruct (proj1 (connection_init_accepts_below_ceiling 100
                     initial_server Ht Hn))
    as (s' & Hrun & Hnum & Hslot & _).
  - simpl. unfold MAX_CONNECTIONS. lia.
  - exists s'. split; [exact Hrun|]. split; [exact Hnum|].
    change (Z.to_nat (num_connections initial_server)) with 0%nat in Hslot.
    rewrite Hslot. reflexivity.
Defined.

(** ** The wait set *)

Lemma wait_handles_sessions (pending : PipeWriteHandle -> bool)
  (s : Server) (w : WaitHandle) :
  In w (wait_handles pending s) <->
  w = wsevent \/
  exists i, Z.of_nat i < num_connections s /\
            In w (session_wait_handles pending (connection_at s i)).
Proof.
  unfold wait_handles. simpl. rewrite in_flat_map.
  split.
  - intros [H|(i & Hi & Hw)]; [left; congruence|].
    right. exists i. apply in_seq in Hi. split; [lia|exact Hw].
  - intros [H|(i & Hi & Hw)]; [left; congruence|].
    right. exists i. split; [apply in_seq; lia|exact Hw].
Qed.

(** C2.  At wait-set assembly each session contributes its stdout and
    stderr read events only with at least 3 + 32768 spare bytes in its
    send buffer, and its process handle only with at least 3 + 4 spare
    bytes and both output pipes absent; the wait set is the socket event
    and these contributions. *)
Theorem wait_set_gates (pending : PipeWriteHandle -> bool) (s : Server)
  (i : nat) :
  sendbuf_ok (connection_at s i) ->
  (forall h,
     In (pipe9x_read_event h)
        (session_wait_handles pending (connection_at s i)) ->
     3 + 32768 <= sendbuf_spare (connection_at s i) /\
     (stdout_pipe (connection_at s i) = Some h \/
      stderr_pipe (connection_at s i) = Some h)) /\
  (forall p,
     In (process_handle p)
        (session_wait_handles pending (connection_at s i)) ->
     3 + 4 <= sendbuf_spare (connection_at s i) /\
     stdout_pipe (connection_at s i) = None /\
     stderr_pipe (connection_at s i) = None /\
     process (connection_at s i) = Some p) /\
  (forall w,
     In w (wait_handles pending s) <->
     w = wsevent \/
     exists j, Z.of_nat j < num_connections s /\
               In w (session_wait_handles pending (connection_at s j))).
Proof.
  intros Hok. set (c := connection_at s i) in *.
  unfold sendbuf_ok, SENDBUF_SIZE in Hok.
  unfold sendbuf_spare, SENDBUF_SIZE.
  split; [|split].
  - intros h Hin. unfold session_wait_handles in Hin.
    unfold sizeof_MessageHeader, PIPE_READ_SIZE, sizeof_int32_t,
      SENDBUF_SIZE in Hin.
    rewrite (size_t_small (128 * 1024 - sendbuf_used c)) in Hin by lia.
    rewrite !size_t_small in Hin by lia.
    rewrite !Z.geb_leb in Hin.
    apply in_app_iff in Hin. destruct Hin as [Hin|Hin].
    + destruct (3 + 32768 <=? 128 * 1024 - sendbuf_used c) eqn:E;
        [|destruct Hin].
      apply Z.leb_le in E. split; [lia|].
      apply in_app_iff in Hin. destruct Hin as [Hin|Hin].
      * destruct (stdout_pipe c); simpl in Hin; [|tauto].
        destruct Hin as [Hin|[]]. left. congruence.
      * destruct (stderr_pipe c); simpl in Hin; [|tauto].
        destruct Hin as [Hin|[]]. right. congruence.
    + exfalso. apply in_app_iff in Hin. destruct Hin as [Hin|Hin].
      * destruct (3 + 4 <=? 128 * 1024 - sendbuf_used c);
          [|destruct Hin].
        destruct (stdout_pipe c), (stderr_pipe c), (process c);
          simpl in Hin; intuition discriminate.
      * destruct (stdin_pipe c) as [w|]; [|destruct Hin].
        destruct (pending w); simpl in Hin; intuition discriminate.
  - intros p Hin. unfold session_wait_handles in Hin.
    unfold sizeof_MessageHeader, PIPE_READ_SIZE, sizeof_int32_t,
      SENDBUF_SIZE in Hin.
    rewrite (size_t_small (128 * 1024 - sendbuf_used c)) in Hin by lia.
    rewrite !size_t_small in Hin by lia.
    rewrite !Z.geb_leb in Hin.
    apply in_app_iff in Hin. destruct Hin as [Hin|Hin].
    + exfalso.
      destruct (3 + 32768 <=? 128 * 1024 - sendbuf_used c);
        [|destruct Hin].
      destruct (stdout_pipe c), (stderr_pipe c);
        simpl in Hin; intuition discriminate.
    + apply in_app_iff in Hin. destruct Hin as [Hin|Hin].
      * destruct (3 + 4 <=? 128 * 1024 - sendbuf_used c) eqn:E;
          [|destruct Hin].
        apply Z.leb_le in E.
        destruct (stdout_pipe c), (stderr_pipe c), (process c);
          simpl in Hin; try tauto.
        destruct Hin as [Hin|[]]. injection Hin as ->.
        repeat split. lia.
      * exfalso. destruct (stdin_pipe c) as [w|]; [|destruct Hin].
        destruct (pending w); simpl in Hin; intuition discriminate.
  - intros w. apply wait_handles_sessions.
Qed.

(** ** Scenarios

    Concrete environments, used to run the model. *)

(** The session of [running_server] has an empty send buffer; both its
    read events are in the wait set. *)
Lemma wait_set_gates_witness :
  sendbuf_ok (connection_at running_server 0) /\
  In (pipe9x_read_event 3)
     (session_wait_handles (fun _ => false)
        (connection_at running_server 0)) /\
  3 + 32768 <= sendbuf_spare (connection_at running_server 0).
Proof.
  assert (H : sendbuf_ok (connection_at running_server 0))
    by (unfold sendbuf_ok; simpl; unfold SENDBUF_SIZE; lia).
  split; [exact H|].
  assert (Hin : In (pipe9x_read_event 3)
                  (session_wait_handles (fun _ => false)
                     (connection_at running_server 0)))
    by (vm_compute; left; reflexivity).
  split; [exact Hin|].
  exact (proj1 (proj1 (wait_set_gates (fun _ => false) running_server 0 H)
                  3 Hin)).
Defined.

Lemma session_wait_handles_length (pending : PipeWriteHandle -> bool)
  (c : Connection) :
  (length (session_wait_handles pending c) <= 3)%nat.
Proof.
  unfold session_wait_handles.
  destruct (size_t (SENDBUF_SIZE - sendbuf_used c)
              >=? size_t (sizeof_MessageHeader + PIPE_READ_SIZE));
    destruct (size_t (SENDBUF_SIZE - sendbuf_used c)
                >=? size_t (sizeof_MessageHeader + sizeof_int32_t));
    destruct (stdout_pipe c), (stderr_pipe c), (process c),
      (stdin_pipe c) as [w|];
    try destruct (pending w); simpl; lia.
Qed.

Lemma session_wait_handles_exclusive (pending : PipeWriteHandle -> bool)
  (c : Connection) (p : HANDLE) (h : PipeReadHandle) :
  In (process_handle p) (session_wait_handles pending c) ->
  ~ In (pipe9x_read_event h) (session_wait_handles pending c).
Proof.
  unfold session_wait_handles.
  destruct (size_t (SENDBUF_SIZE - sendbuf_used c)
              >=? size_t (sizeof_MessageHeader + PIPE_READ_SIZE));
    destruct (size_t (SENDBUF_SIZE - sendbuf_used c)
                >=? size_t (sizeof_MessageHeader + sizeof_int32_t));
    destruct (stdout_pipe c), (stderr_pipe c), (process c),
      (stdin_pipe c) as [w|];
    try destruct (pending w); simpl; intuition discriminate.
Qed.

Lemma flat_map_length_bound {A B : Type} (f : A -> list B) (k : nat)
  (l : list A) :
  (forall a, (length (f a) <= k)%nat) ->
  (length (flat_map f l) <= k * length l)%nat.
Proof.
  intros H. induction l as [|a l IH]; simpl.
  - lia.
  - rewrite length_app. specialize (H a). lia.
Qed.

(** C10.  Each session contributes at most 3 handles to the wait set (its
    process handle never together with one of its read events), so with
    at most 16 live sessions the wait set has at most 1 + 3 * 16 entries,
    the capacity of the array. *)
Theorem wait_set_within_capacity (pending : PipeWriteHandle -> bool)
  (s : Server) :
  0 <= num_connections s <= MAX_CONNECTIONS ->
  (forall c, (length (session_wait_handles pending c) <= 3)%nat) /\
  (forall c p h,
     In (process_handle p) (session_wait_handles pending c) ->
     ~ In (pipe9x_read_event h) (session_wait_handles pending c)) /\
  Z.of_nat (length (wait_handles pending s)) <= 1 + 3 * 16 /\
  Z.of_nat (length (wait_handles pending s)) <= wait_handles_capacity.
Proof.
  intros Hn. unfold MAX_CONNECTIONS in Hn.
  split; [apply session_wait_handles_length|].
  split; [apply session_wait_handles_exclusive|].
  assert (Hlen : Z.of_nat (length (wait_handles pending s)) <= 1 + 3 * 16).
  { unfold wait_handles. simpl length.
    pose proof (flat_map_length_bound
                  (fun i => session_wait_handles pending (connection_at s i))
                  3 (seq 0 (Z.to_nat (num_connections s)))
                  (fun i => session_wait_handles_length pending _)) as H.
    rewrite length_seq in H. lia. }
  split; [exact Hlen|].
  unfold wait_handles_capacity, MAX_CONNECTIONS. lia.
Qed.

(** The wait set of [running_server]: the socket event and two read
    events. *)
Lemma wait_set_within_capacity_witness :
  0 <= num_connections running_server <= MAX_CONNECTIONS /\
  Z.of_nat (length (wait_handles (fun _ => false) running_server))
  <= wait_handles_capacity.
Proof.
  assert (H : 0 <= num_connections running_server <= MAX_CONNECTIONS)
    by (simpl; unfold MAX_CONNECTIONS; lia).
  split; [exact H|].
  exact (proj2 (proj2 (proj2
           (wait_set_within_capacity (fun _ => false) running_server H)))).
Defined.

(** ** connection_close *)

Lemma copy_struct_bytes_fields (n : nat) (src dst : Connection) :
  process (copy_struct_bytes n src dst) = process dst /\
  stdin_pipe (copy_struct_bytes n src dst) = stdin_pipe dst /\
  stdout_pipe (copy_struct_bytes n src dst) = stdout_pipe dst /\
  stderr_pipe (copy_struct_bytes n src dst) = stderr_pipe dst /\
  application_path (copy_struct_bytes n src dst) = application_path dst /\
  command_line (copy_struct_bytes n src dst) = command_line dst /\
  working_directory (copy_struct_bytes n src dst) = working_directory dst /\
  sendbuf (copy_struct_bytes n src dst) = sendbuf dst /\
  sendbuf_used (copy_struct_bytes n src dst) = sendbuf_used dst /\
  recvbuf_used (copy_struct_bytes n src dst) = recvbuf_used dst.
Proof.
  unfold copy_struct_bytes. destruct (n =? 0)%nat; simpl; repeat split.
Qed.

(** [connection_close] always returns; it leaves the slot without child,
    pipes or strings, its buffers' fill levels as they were, the other
    slots untouched, and the count one lower. *)
Lemma connection_close_spec (idx : nat) (s : Server) :
  table_ok s -> (idx < 16)%nat ->
  exists s',
    connection_close idx s = Ok tt s' /\
    num_connections s' = size_t (num_connections s - 1) /\
    table_ok s' /\
    next_handle s' = next_handle s /\
    next_connection_id s' = next_connection_id s /\
    trace s' = closing_actions idx (connection_at s idx) ++ trace s /\
    (forall j, j <> idx -> connection_at s' j = connection_at s j) /\
    process (connection_at s' idx) = None /\
    stdin_pipe (connection_at s' idx) = None /\
    stdout_pipe (connection_at s' idx) = None /\
    stderr_pipe (connection_at s' idx) = None /\
    application_path (connection_at s' idx) = None /\
    sendbuf_used (connection_at s' idx) = sendbuf_used (connection_at s idx) /\
    recvbuf_used (connection_at s' idx) = recvbuf_used (connection_at s idx).
Proof.
  intros Ht Hi. unfold table_ok, MAX_CONNECTIONS in *.
  unfold connection_close, bind, connection, get, update, emit, modify,
    closing_actions.
  destruct (process (connection_at s idx)) as [p|] eqn:Ep; simpl;
    (eexists; split; [reflexivity|]);
    (split; [reflexivity|]);
    (split; [unfold table_ok, MAX_CONNECTIONS; table_len|]);
    (split; [reflexivity|]); (split; [reflexivity|]);
    (split; [reflexivity|]);
    (split; [intros j Hj; table_simpl; reflexivity|]);
    table_simpl;
    match goal with
    | |- context [copy_struct_bytes ?n ?src ?dst] =>
        destruct (copy_struct_bytes_fields n src dst)
          as (E1 & E2 & E3 & E4 & E5 & E6 & E7 & E8 & E9 & E10);
        rewrite E1, E2, E3, E4, E5, E9, E10
    end;
    repeat split; simpl; auto.
Qed.

(** C4 (the code departs from the claim).  With two live sessions,
    destroying the one at index 0 does not bring the session of index 1
    to index 0: the [memmove] copies one byte, so slot 0 keeps the closed
    session with the low byte of the other's [id], and the session that
    was at index 1 (socket 200, a running child) is no longer among the
    live slots. *)
Theorem connection_close_copies_bytes_not_sessions :
  num_connections two_sessions = 2 /\
  sock (connection_at two_sessions 1) = 200 /\
  process (connection_at two_sessions 1) = Some 7 /\
  exists s',
    connection_close 0 two_sessions = Ok tt s' /\
    num_connections s' = 1 /\
    connection_at s' 0 <> connection_at two_sessions 1 /\
    id (connection_at s' 0) = id (connection_at two_sessions 1) /\
    sock (connection_at s' 0) = INVALID_SOCKET /\
    process (connection_at s' 0) = None.
Proof.
  split; [reflexivity|]. split; [reflexivity|]. split; [reflexivity|].
  eexists. split; [vm_compute; reflexivity|].
  split; [reflexivity|]. split; [|repeat split].
  vm_compute. intros H. discriminate H.
Qed.

(** ** The execute command *)

Lemma handle_command_execute (idx : nat) (f : Frame) (env : FrameEnv) :
  command f = "E"%byte -> handle_command idx f env = execute idx env.
Proof. intros H. unfold handle_command. rewrite H. reflexivity. Qed.

Lemma closing_actions_no_pipes (idx : nat) (c : Connection) :
  pipe_ends_created (closing_actions idx c) = [] /\
  pipe_ends_closed (closing_actions idx c) = [] /\
  forall a, In a (closing_actions idx c) -> is_spawn a = false.
Proof.
  unfold closing_actions. destruct (process c); simpl; repeat split;
    intros a Ha; repeat (destruct Ha as [<-|Ha]; [reflexivity|]);
    destruct Ha.
Qed.

Lemma pipe_ends_created_app (a b : list Action) :
  pipe_ends_created (a ++ b) = pipe_ends_created a ++ pipe_ends_created b.
Proof.
  induction a as [|x a IH]; [reflexivity|].
  destruct x; simpl; rewrite IH; reflexivity.
Qed.

Lemma pipe_ends_closed_app (a b : list Action) :
  pipe_ends_closed (a ++ b) = pipe_ends_closed a ++ pipe_ends_closed b.
Proof.
  induction a as [|x a IH]; [reflexivity|].
  destruct x as [| | | | |[h|]| | | | | |]; simpl; rewrite IH; reflexivity.
Qed.

Ltac close_in_goal s idx Ht Hi :=
  match goal with
  | |- context [connection_close idx ?S] =>
      let H := fresh "Hclose" in
      assert (H : table_ok S) by exact Ht;
      destruct (connection_close_spec idx S H Hi)
        as (s' & Hrun & Hnum & _ & _ & _ & Htr & _ & Hp & Hin & Hout
            & Herr & _);
      rewrite Hrun; clear H;
      match goal with
      | E : trace _ = closing_actions _ _ ++ _ |- _ =>
          change (connection_at S idx) with (connection_at s idx) in E
      end
  end.

Ltac failure_case added Htr Hcr Hcl Hsp :=
  exists added; split; [reflexivity|];
  split; [rewrite Htr; rewrite <- app_assoc; reflexivity|];
  split;
    [intros h; rewrite pipe_ends_created_app, pipe_ends_closed_app, Hcr, Hcl;
     simpl; tauto|];
  split; [apply in_or_app; left; left; reflexivity|];
  split;
    [intros a Ha; apply in_app_or in Ha; destruct Ha as [Ha|Ha];
     [apply Hsp; exact Ha
     |simpl in Ha; repeat (destruct Ha as [<-|Ha]; [reflexivity|]);
      destruct Ha]|];
  repeat split; assumption.

(** C8.  When one of the three pipe creations of an execute command
    fails, the command ends the call with the session destroyed: every
    pipe end created before the failure is closed, no child is spawned,
    and the slot holds no pipe handle and no process. *)
Theorem execute_pipe_creation_failure (idx : nat) (f : Frame)
  (env : FrameEnv) (s : Server) :
  table_ok s -> (idx < 16)%nat ->
  command f = "E"%byte ->
  pipe_creation_fails env ->
  exists s' added,
    handle_command idx f env s = Ok (Return false) s' /\
    trace s' = added ++ trace s /\
    (forall h, In h (pipe_ends_created added) ->
               In h (pipe_ends_closed added)) /\
    In (ConnectionClosed idx) added /\
    (forall a, In a added -> is_spawn a = false) /\
    num_connections s' = size_t (num_connections s - 1) /\
    process (connection_at s' idx) = None /\
    stdin_pipe (connection_at s' idx) = None /\
    stdout_pipe (connection_at s' idx) = None /\
    stderr_pipe (connection_at s' idx) = None.
Proof.
  intros Ht Hi Hcmd Hfail.
  rewrite (handle_command_execute idx f env Hcmd).
  unfold execute, pipe9x_create, bind, fresh_handle, emit, modify, ret.
  destruct (closing_actions_no_pipes idx (connection_at s idx))
    as (Hcr & Hcl & Hsp).
  destruct (stdin_pipe_error env =? ERROR_SUCCESS) eqn:E1.
  - destruct (stdout_pipe_error env =? ERROR_SUCCESS) eqn:E2.
    + destruct (stderr_pipe_error env =? ERROR_SUCCESS) eqn:E3.
      * exfalso. apply Z.eqb_eq in E1, E2, E3.
        destruct Hfail as [H|[H|H]]; congruence.
      * simpl. close_in_goal s idx Ht Hi. exists s'.
        failure_case
          (closing_actions idx (connection_at s idx) ++
           [Pipe9xReadClose (next_handle s);
            Pipe9xWriteClose (Some (next_handle s + 1));
            Pipe9xReadClose (next_handle s + 1 + 1);
            Pipe9xWriteClose (Some (next_handle s + 1 + 1 + 1));
            Pipe9xCreate (next_handle s + 1 + 1)
              (next_handle s + 1 + 1 + 1);
            Pipe9xCreate (next_handle s) (next_handle s + 1)])
          Htr Hcr Hcl Hsp.
    + simpl. close_in_goal s idx Ht Hi. exists s'.
      failure_case
        (closing_actions idx (connection_at s idx) ++
         [Pipe9xReadClose (next_handle s);
          Pipe9xWriteClose (Some (next_handle s + 1));
          Pipe9xCreate (next_handle s) (next_handle s + 1)])
          Htr Hcr Hcl Hsp.
  - simpl. close_in_goal s idx Ht Hi. exists s'.
    failure_case (closing_actions idx (connection_at s idx) ++ [])
      Htr Hcr Hcl Hsp.
Qed.

(** An execute frame arrives while the pipe for stdout cannot be
    created: the stdin pipe is closed again and the session destroyed. *)
Lemma execute_pipe_creation_failure_witness :
  table_ok connected_server /\
  pipe_creation_fails stdout_pipe_fails /\
  exists s' added,
    handle_command 0 (mkFrame "E" 0 [] 3) stdout_pipe_fails
      connected_server = Ok (Return false) s' /\
    trace s' = added ++ trace connected_server /\
    In (ConnectionClosed 0) added.
Proof.
  assert (Ht : table_ok connected_server) by reflexivity.
  assert (Hf : pipe_creation_fails stdout_pipe_fails)
    by (right; left; simpl; unfold ERROR_SUCCESS; lia).
  split; [exact Ht|]. split; [exact Hf|].
  destruct (execute_pipe_creation_failure 0 (mkFrame "E" 0 [] 3)
              stdout_pipe_fails connected_server Ht ltac:(lia)
              eq_refl Hf)
    as (s' & added & Hrun & Htr & _ & Hin & _).
  exists s', added. repeat split; assumption.
Defined.



(** The null path is not read before every failure check: the three
    pipe creations are checked first.  On the same session, with the
    pipe for stdout failing, the same frame is handled as an error: the
    stdin pipe is closed again, the session is destroyed and the call
    returns [false]. *)
Lemma execute_without_application_path_after_pipe_failure :
  application_path (connection_at connected_server 0) = None /\
  (exists s',
     handle_command 0 (mkFrame "E" 0 [] 3) stdout_pipe_fails
       connected_server = Ok (Return false) s' /\
     In (ConnectionClosed 0) (trace s') /\
     num_connections s' = 0) /\
  ~ (forall (idx : nat) (f : Frame) (env : FrameEnv) (s : Server),
       command f = "E"%byte ->
       application_path (connection_at s idx) = None ->
       handle_command idx f env s = Crash NullDereference).
Proof.
  split; [reflexivity|]. split.
  - eexists. split; [vm_compute; reflexivity|].
    split; [left; reflexivity|reflexivity].
  - intros H.
    specialize (H 0%nat (mkFrame "E" 0 [] 3) stdout_pipe_fails
                  connected_server eq_refl eq_refl).
    vm_compute in H. discriminate H.
Qed.

(** ** Stalled stdin frames *)

(** The stall itself: a non-empty [I] frame that meets a write in flight
    ends the call with the server as it was, the frame still at the head
    of the receive buffer. *)
Lemma stdin_frame_stalls (s : Server) (idx : nat) (f : Frame)
  (h : PipeWriteHandle) (env : nat -> FrameEnv) (n fuel : nat) :
  parse_frame (connection_at s idx) = Some f ->
  command f = "I"%byte ->
  payload_length f <> 0 ->
  stdin_pipe (connection_at s idx) = Some h ->
  write_pending (env n) = true ->
  read_frames (S fuel) idx env n s = Ok true s.
Proof.
  intros Hp Hc Hl Hs Hw. simpl. unfold bind, connection. rewrite Hp.
  unfold handle_command. rewrite Hc. simpl.
  unfold write_stdin, bind, connection.
  apply Z.eqb_neq in Hl. rewrite Hl, Hs, Hw. reflexivity.
Qed.

(** The completion of a write on a child's stdin, reported as a success,
    changes nothing in the server: whatever the table holds, the dispatch
    loop finds the owner of the event (or none) and goes back to
    waiting. *)
Lemma dispatch_write_completion (n i : nat) (h : PipeWriteHandle)
  (env : LoopEnv) (s : Server) :
  write_result env = ERROR_SUCCESS ->
  dispatch_handle n i (pipe9x_write_event h) env s = Ok tt s.
Proof.
  intros Hw. revert i. induction n as [|n IH]; intros i.
  - reflexivity.
  - simpl. unfold bind, connection.
    destruct (stdout_pipe (connection_at s i)); simpl;
      destruct (stderr_pipe (connection_at s i)); simpl;
      destruct (stdin_pipe (connection_at s i)) as [w|]; simpl;
      try destruct (h =? w); simpl;
      rewrite ?Hw; simpl;
      try reflexivity;
      destruct (process (connection_at s i)); simpl; apply IH.
Qed.

Lemma write_completion_changes_nothing (env : LoopEnv) (s : Server)
  (h : PipeWriteHandle) :
  wait_handles (pending env) s !! Z.to_nat (wait_result env - WAIT_OBJECT_0)
    = Some (pipe9x_write_event h) ->
  WAIT_OBJECT_0 < wait_result env ->
  wait_result env <> WAIT_FAILED ->
  write_result env = ERROR_SUCCESS ->
  main_iteration env s = Ok tt s.
Proof.
  intros Hlook Hpos Hnf Hw. unfold main_iteration, bind, get.
  apply Z.eqb_neq in Hnf. rewrite Hnf.
  replace (wait_result env =? WAIT_OBJECT_0) with false
    by (symmetry; apply Z.eqb_neq; lia).
  replace (WAIT_OBJECT_0 <? wait_result env) with true
    by (symmetry; apply Z.ltb_lt; lia).
  apply lookup_lt_Some in Hlook as Hlt.
  replace (wait_result env
           <? WAIT_OBJECT_0
              + Z.of_nat (length (wait_handles (pending env) s)))
    with true
    by (symmetry; apply Z.ltb_lt; unfold WAIT_OBJECT_0 in *; lia).
  simpl. rewrite Hlook. apply dispatch_write_completion. exact Hw.
Qed.

(** C1 (the code departs from the claim).  The second [I] frame of
    [client_writes_twice] is stalled behind the write of the first: it
    sits at the head of the receive buffer and only the first payload
    was handed to the pipe.  When that write completes, the server
    returns to waiting with the frame where it was; a later socket event
    that brings no new bytes does not dispatch it either. *)
Theorem stalled_frame_not_resumed_on_write_completion :
  parse_frame (connection_at stalled_server 0)
    = Some (mkFrame "I" 2 ["c"; "d"]%byte 5) /\
  trace stalled_server
    = Pipe9xWriteInitiate 2 ["a"; "b"]%byte
        :: trace running_server /\
  wait_handles (pending write_completes) stalled_server !! 3%nat
    = Some (pipe9x_write_event 2) /\
  main_iteration write_completes stalled_server = Ok tt stalled_server /\
  main_iteration nothing_arrives stalled_server = Ok tt stalled_server.
Proof.
  split; [reflexivity|]. split; [reflexivity|]. split; [reflexivity|].
  split.
  - apply (write_completion_changes_nothing write_completes
             stalled_server 2); try reflexivity.
    simpl. unfold WAIT_FAILED. lia.
  - vm_compute. reflexivity.
Qed.

(** ** Frames queued per slot *)

(** ** The invariant: elementary steps *)

Lemma post_bind {A B : Type} (m : M A) (k : A -> M B) (s : Server)
  (Q1 : A -> Server -> Prop) (Q : B -> Server -> Prop) :
  post (m s) Q1 ->
  (forall a s', Q1 a s' -> post (k a s') Q) ->
  post (bind m k s) Q.
Proof.
  intros H1 H2. unfold bind. destruct (m s) as [a s'|f].
  - apply H2. exact H1.
  - exact I.
Qed.

Lemma post_weaken {A : Type} (o : Outcome A)
  (Q Q' : A -> Server -> Prop) :
  post o Q -> (forall a s, Q a s -> Q' a s) -> post o Q'.
Proof. unfold post. destruct o; auto. Qed.

Lemma frames_queued_quiet (a : Action) (tr : list Action) (i : nat) :
  quiet a -> frames_queued i (a :: tr) = frames_queued i tr.
Proof. destruct a; simpl; intros H; try reflexivity; destruct H. Qed.

Lemma children_spawned_quiet (a : Action) (tr : list Action) (i : nat) :
  quiet a -> children_spawned i (a :: tr) = children_spawned i tr.
Proof. destruct a; simpl; intros H; try reflexivity; destruct H. Qed.

Lemma settled_quiet (a : Action) (tr : list Action) (i : nat) :
  quiet a -> settled (a :: tr) i <-> settled tr i.
Proof.
  intros H. unfold settled.
  rewrite frames_queued_quiet, children_spawned_quiet by exact H.
  reflexivity.
Qed.

Lemma frames_ok_quiet (a : Action) (tr : list Action) (i : nat) :
  quiet a -> frames_ok tr i -> frames_ok (a :: tr) i.
Proof.
  intros H. unfold frames_ok.
  rewrite frames_queued_quiet, children_spawned_quiet by exact H.
  auto.
Qed.

Lemma connection_at_assign_cases (idx : nat)
  (f : Connection -> Connection) (s : Server) (i : nat) :
  connection_at (assign idx f s) i = connection_at s i \/
  (i = idx /\ connection_at (assign idx f s) i = f (connection_at s idx)).
Proof.
  destruct (decide (i = idx)) as [->|Hne].
  - destruct (decide (idx < length (connections s))%nat) as [Hlt|Hge].
    + right. split; [reflexivity|]. apply connection_at_assign_eq. exact Hlt.
    + left. unfold connection_at, assign. simpl.
      rewrite list_insert_ge by lia. reflexivity.
  - left. apply connection_at_assign_ne. exact Hne.
Qed.

Lemma inv_record_quiet (a : Action) (s : Server) :
  quiet a -> Inv s -> Inv (record a s).
Proof.
  intros Hq [Ht Hc Hf Hi Hn Hd]. constructor.
  - exact Ht.
  - exact Hc.
  - intros i. apply frames_ok_quiet; [exact Hq|apply Hf].
  - intros i Hl Hs. apply (Hi i Hl). apply (settled_quiet a); assumption.
  - exact Hn.
  - exact Hd.
Qed.

(** The general step on one slot: the new child handle, if any, is the
    old one or one no live slot holds, and a settled slot stays idle. *)
Lemma inv_assign (idx : nat) (f : Connection -> Connection) (s : Server) :
  Inv s ->
  (Z.of_nat idx < num_connections s ->
   forall p, process (f (connection_at s idx)) = Some p ->
             process (connection_at s idx) = Some p \/
             (p < next_handle s /\
              forall j, Z.of_nat j < num_connections s ->
                        process (connection_at s j) <> Some p)) ->
  (Z.of_nat idx < num_connections s ->
   settled (trace s) idx -> idle (f (connection_at s idx))) ->
  Inv (assign idx f s).
Proof.
  intros [Ht Hc Hf Hi Hn Hd] Hproc Hidle. constructor.
  - unfold table_ok. rewrite length_assign. exact Ht.
  - exact Hc.
  - exact Hf.
  - intros i Hl Hs.
    destruct (connection_at_assign_cases idx f s i) as [E|[-> E]];
      rewrite E.
    + apply Hi; assumption.
    + apply Hidle; assumption.
  - intros i p Hl Hp.
    destruct (connection_at_assign_cases idx f s i) as [E|[-> E]];
      rewrite E in Hp.
    + apply (Hn i p Hl Hp).
    + destruct (Hproc Hl p Hp) as [H|[H _]]; [apply (Hn idx p Hl H)|exact H].
  - intros i j p Hli Hlj Hpi Hpj.
    destruct (connection_at_assign_cases idx f s i) as [Ei|[-> Ei]];
      rewrite Ei in Hpi;
      destruct (connection_at_assign_cases idx f s j) as [Ej|[-> Ej]];
      rewrite Ej in Hpj; try reflexivity.
    + apply (Hd i j p); assumption.
    + destruct (Hproc Hlj p Hpj) as [H|[_ H]].
      * apply (Hd i idx p); assumption.
      * exfalso. apply (H i Hli Hpi).
    + destruct (Hproc Hli p Hpi) as [H|[_ H]].
      * apply (Hd idx j p); assumption.
      * exfalso. apply (H j Hlj Hpj).
Qed.

Lemma clears_idle (f : Connection -> Connection) (c : Connection) :
  clears f -> idle c -> idle (f c).
Proof.
  intros Hf (H1 & H2 & H3). destruct (Hf c) as (F1 & F2 & F3).
  unfold idle. repeat split; intuition congruence.
Qed.

Lemma inv_assign_clears (idx : nat) (f : Connection -> Connection)
  (s : Server) :
  clears f -> Inv s -> Inv (assign idx f s).
Proof.
  intros Hf HI. apply inv_assign; [exact HI| |].
  - intros _ p Hp. left. destruct (Hf (connection_at s idx)) as ([H|H] & _);
      congruence.
  - intros Hl Hs. apply clears_idle; [exact Hf|].
    apply (inv_idle s HI idx Hl Hs).
Qed.

Lemma inv_assign_open (idx : nat) (f : Connection -> Connection)
  (s : Server) :
  keeps_process f -> ~ settled (trace s) idx -> Inv s ->
  Inv (assign idx f s).
Proof.
  intros Hf Hopen HI. apply inv_assign; [exact HI| |].
  - intros _ p Hp. left. destruct (Hf (connection_at s idx)); congruence.
  - intros _ Hs. contradiction.
Qed.

Lemma inv_assign_process (idx : nat) (p : HANDLE) (s : Server) :
  ~ settled (trace s) idx ->
  p < next_handle s ->
  (forall j, Z.of_nat j < num_connections s ->
             process (connection_at s j) <> Some p) ->
  Inv s -> Inv (assign idx (set_process (Some p)) s).
Proof.
  intros Hopen Hp Hfresh HI. apply inv_assign; [exact HI| |].
  - intros _ q Hq. simpl in Hq. injection Hq as <-. right. split; assumption.
  - intros _ Hs. contradiction.
Qed.

Lemma inv_with_num_connections_le (n : Z) (s : Server) :
  0 <= n <= num_connections s -> Inv s ->
  Inv (with_num_connections n s).
Proof.
  intros H1 [Ht Hc Hf Hi Hn Hd]. unfold MAX_CONNECTIONS in Hc.
  constructor; simpl.
  - exact Ht.
  - unfold MAX_CONNECTIONS. lia.
  - exact Hf.
  - intros i Hl. apply Hi. lia.
  - intros i p Hl. apply Hn. lia.
  - intros i j p Hli Hlj. apply Hd; lia.
Qed.

Lemma size_t_pred (n : Z) :
  1 <= n <= MAX_CONNECTIONS -> 0 <= size_t (n - 1) <= n.
Proof.
  unfold MAX_CONNECTIONS. intros H. rewrite size_t_small; lia.
Qed.

Lemma inv_with_next_handle (n : Z) (s : Server) :
  next_handle s <= n -> Inv s -> Inv (with_next_handle n s).
Proof.
  intros Hle [Ht Hc Hf Hi Hn Hd]. constructor; simpl; try assumption.
  intros i p Hl Hp. specialize (Hn i p Hl Hp). lia.
Qed.

Lemma inv_with_next_connection_id (n : Z) (s : Server) :
  Inv s -> Inv (with_next_connection_id n s).
Proof. intros [Ht Hc Hf Hi Hn Hd]. constructor; assumption. Qed.

Lemma exit_frame_ends_snoc (l : list byte) (c : byte) :
  ~ In "X"%byte l -> exit_frame_ends (l ++ [c]).
Proof.
  intros Hn before after E.
  destruct after as [|z after] using rev_ind; [reflexivity|].
  exfalso. apply Hn.
  change (before ++ "X"%byte :: after ++ [z])
    with (before ++ ("X"%byte :: after) ++ [z]) in E.
  rewrite app_assoc in E. apply app_inj_tail in E. destruct E as [-> _].
  apply in_or_app. right. left. reflexivity.
Qed.

Lemma not_settled_open (tr : list Action) (i : nat) :
  ~ settled tr i ->
  children_spawned i tr <> 0%nat /\
  ((children_spawned i tr <= 1)%nat -> ~ In "X"%byte (frames_queued i tr)).
Proof.
  intros H. unfold settled in H. split.
  - intros E. apply H. split; [lia|left; exact E].
  - intros Hle Hin. apply H. split; [exact Hle|right; exact Hin].
Qed.

Lemma queued_other (idx i : nat) (cmd : byte) (data : list byte)
  (tr : list Action) :
  i <> idx ->
  frames_queued i (Queued idx cmd data :: tr) = frames_queued i tr.
Proof.
  intros H. simpl. destruct (idx =? i)%nat eqn:E; [|reflexivity].
  apply Nat.eqb_eq in E. congruence.
Qed.

Lemma queued_same (idx : nat) (cmd : byte) (data : list byte)
  (tr : list Action) :
  frames_queued idx (Queued idx cmd data :: tr)
  = frames_queued idx tr ++ [cmd].
Proof. simpl. rewrite Nat.eqb_refl. reflexivity. Qed.

(** Queuing a frame on a slot that is not settled; an exit frame only on
    an idle session. *)
Lemma inv_queued (idx : nat) (cmd : byte) (data : list byte) (s : Server) :
  ~ settled (trace s) idx ->
  (cmd = "X"%byte -> Z.of_nat idx < num_connections s ->
   idle (connection_at s idx)) ->
  Inv s -> Inv (record (Queued idx cmd data) s).
Proof.
  intros Hopen Hx [Ht Hc Hf Hi Hn Hd].
  destruct (not_settled_open _ _ Hopen) as [Hne Hnx].
  constructor; try assumption.
  - intros i. specialize (Hf i). unfold frames_ok in *.
    change (trace (record (Queued idx cmd data) s))
      with (Queued idx cmd data :: trace s).
    change (children_spawned i (Queued idx cmd data :: trace s))
      with (children_spawned i (trace s)).
    destruct (decide (i = idx)) as [->|Hneq].
    + rewrite queued_same. split; [intros E; contradiction|].
      intros Hle. apply exit_frame_ends_snoc. apply Hnx. exact Hle.
    + rewrite queued_other by exact Hneq. exact Hf.
  - intros i Hl Hs. rewrite connection_at_record.
    unfold settled in Hs.
    change (trace (record (Queued idx cmd data) s))
      with (Queued idx cmd data :: trace s) in Hs.
    change (children_spawned i (Queued idx cmd data :: trace s))
      with (children_spawned i (trace s)) in Hs.
    destruct (decide (i = idx)) as [->|Hneq].
    + rewrite queued_same in Hs. destruct Hs as [Hle [E|Hin]];
        [contradiction|].
      apply in_app_or in Hin. destruct Hin as [Hin|[E|[]]].
      * exfalso. apply (Hnx Hle Hin).
      * apply Hx; [exact E|exact Hl].
    + rewrite queued_other in Hs by exact Hneq. apply Hi; assumption.
Qed.

Lemma not_settled_queued (idx : nat) (cmd : byte) (data : list byte)
  (tr : list Action) :
  cmd <> "X"%byte -> ~ settled tr idx ->
  ~ settled (Queued idx cmd data :: tr) idx.
Proof.
  intros Hc Hopen Hs. destruct (not_settled_open _ _ Hopen) as [Hne Hnx].
  unfold settled in Hs.
  change (children_spawned idx (Queued idx cmd data :: tr))
    with (children_spawned idx tr) in Hs.
  rewrite queued_same in Hs. destruct Hs as [Hle [E|Hin]];
    [contradiction|].
  apply in_app_or in Hin. destruct Hin as [Hin|[E|[]]].
  - apply (Hnx Hle Hin).
  - congruence.
Qed.

Lemma spawned_same (idx : nat) (p : HANDLE) (path : list byte)
  (cmdline cwd : option (list byte)) (hin : PipeReadHandle)
  (hout herr : PipeWriteHandle) (tr : list Action) :
  children_spawned idx
    (Spawned idx p path cmdline cwd hin hout herr :: tr)
  = S (children_spawned idx tr).
Proof. simpl. rewrite Nat.eqb_refl. reflexivity. Qed.

Lemma spawned_other (idx i : nat) (p : HANDLE) (path : list byte)
  (cmdline cwd : option (list byte)) (hin : PipeReadHandle)
  (hout herr : PipeWriteHandle) (tr : list Action) :
  i <> idx ->
  children_spawned i
    (Spawned idx p path cmdline cwd hin hout herr :: tr)
  = children_spawned i tr.
Proof.
  intros H. simpl. destruct (idx =? i)%nat eqn:E; [|reflexivity].
  apply Nat.eqb_eq in E. congruence.
Qed.

Lemma exit_frame_ends_nil : exit_frame_ends [].
Proof. intros before after E. destruct before; discriminate E. Qed.

(** Right after a spawn the slot is not settled. *)
Lemma not_settled_spawned (idx : nat) (p : HANDLE) (path : list byte)
  (cmdline cwd : option (list byte)) (hin : PipeReadHandle)
  (hout herr : PipeWriteHandle) (tr : list Action) :
  frames_ok tr idx ->
  ~ settled (Spawned idx p path cmdline cwd hin hout herr :: tr) idx.
Proof.
  intros [H0 _] [Hle Hs]. rewrite spawned_same in Hle, Hs.
  change (frames_queued idx
            (Spawned idx p path cmdline cwd hin hout herr :: tr))
    with (frames_queued idx tr) in Hs.
  destruct Hs as [E|Hin]; [discriminate E|].
  rewrite H0 in Hin by lia. destruct Hin.
Qed.

Lemma inv_spawned (idx : nat) (p : HANDLE) (path : list byte)
  (cmdline cwd : option (list byte)) (hin : PipeReadHandle)
  (hout herr : PipeWriteHandle) (s : Server) :
  Inv s -> Inv (record (Spawned idx p path cmdline cwd hin hout herr) s).
Proof.
  intros [Ht Hc Hf Hi Hn Hd]. constructor; try assumption.
  - intros i. specialize (Hf i). unfold frames_ok in *.
    change (trace (record (Spawned idx p path cmdline cwd hin hout herr) s))
      with (Spawned idx p path cmdline cwd hin hout herr :: trace s).
    change (frames_queued i
              (Spawned idx p path cmdline cwd hin hout herr :: trace s))
      with (frames_queued i (trace s)).
    destruct (decide (i = idx)) as [->|Hneq].
    + rewrite spawned_same. split; [intros E; discriminate E|].
      intros Hle. destruct Hf as [H0 _]. rewrite H0 by lia.
      apply exit_frame_ends_nil.
    + rewrite spawned_other by exact Hneq. exact Hf.
  - intros i Hl Hs. rewrite connection_at_record.
    destruct (decide (i = idx)) as [->|Hneq].
    + exfalso. revert Hs. apply not_settled_spawned. apply Hf.
    + apply Hi; [exact Hl|]. unfold settled in *.
      change (trace (record (Spawned idx p path cmdline cwd hin hout herr) s))
        with (Spawned idx p path cmdline cwd hin hout herr :: trace s) in Hs.
      change (frames_queued i
                (Spawned idx p path cmdline cwd hin hout herr :: trace s))
        with (frames_queued i (trace s)) in Hs.
      rewrite spawned_other in Hs by exact Hneq. exact Hs.
Qed.

(** ** The invariant: field updates *)

Lemma clears_keeps (f : Connection -> Connection) :
  (forall c, process (f c) = process c /\
             stdout_pipe (f c) = stdout_pipe c /\
             stderr_pipe (f c) = stderr_pipe c) ->
  clears f.
Proof. intros H c. destruct (H c) as (H1 & H2 & H3). auto. Qed.

Lemma clears_set_id v : clears (set_id v).
Proof. apply clears_keeps. intros c. repeat split. Qed.
Lemma clears_set_state v : clears (set_state v).
Proof. apply clears_keeps. intros c. repeat split. Qed.
Lemma clears_set_sock v : clears (set_sock v).
Proof. apply clears_keeps. intros c. repeat split. Qed.
Lemma clears_set_recvbuf v : clears (set_recvbuf v).
Proof. apply clears_keeps. intros c. repeat split. Qed.
Lemma clears_set_recvbuf_used v : clears (set_recvbuf_used v).
Proof. apply clears_keeps. intros c. repeat split. Qed.
Lemma clears_set_sendbuf v : clears (set_sendbuf v).
Proof. apply clears_keeps. intros c. repeat split. Qed.
Lemma clears_set_sendbuf_used v : clears (set_sendbuf_used v).
Proof. apply clears_keeps. intros c. repeat split. Qed.
Lemma clears_set_application_path v : clears (set_application_path v).
Proof. apply clears_keeps. intros c. repeat split. Qed.
Lemma clears_set_command_line v : clears (set_command_line v).
Proof. apply clears_keeps. intros c. repeat split. Qed.
Lemma clears_set_working_directory v : clears (set_working_directory v).
Proof. apply clears_keeps. intros c. repeat split. Qed.
Lemma clears_set_stdin_pipe v : clears (set_stdin_pipe v).
Proof. apply clears_keeps. intros c. repeat split. Qed.
Lemma clears_set_process_None : clears (set_process None).
Proof. intros c. simpl. auto. Qed.
Lemma clears_set_stdout_pipe_None : clears (set_stdout_pipe None).
Proof. intros c. simpl. auto. Qed.
Lemma clears_set_stderr_pipe_None : clears (set_stderr_pipe None).
Proof. intros c. simpl. auto. Qed.
Lemma clears_set_output_pipe_None which :
  clears (set_output_pipe which None).
Proof. destruct which; intros c; simpl; auto. Qed.
Lemma clears_copy_struct_bytes n src : clears (copy_struct_bytes n src).
Proof.
  apply clears_keeps. intros c.
  destruct (copy_struct_bytes_fields n src c) as (H1 & _ & H3 & H4 & _).
  auto.
Qed.
Lemma clears_drain_frame total : clears (drain_frame total).
Proof. apply clears_keeps. intros c. repeat split. Qed.

Lemma keeps_process_set_stdin_pipe v : keeps_process (set_stdin_pipe v).
Proof. intros c. left. reflexivity. Qed.
Lemma keeps_process_set_stdout_pipe v : keeps_process (set_stdout_pipe v).
Proof. intros c. left. reflexivity. Qed.
Lemma keeps_process_set_stderr_pipe v : keeps_process (set_stderr_pipe v).
Proof. intros c. left. reflexivity. Qed.

Create HintDb inv.
#[local] Hint Resolve clears_set_id clears_set_state clears_set_sock
  clears_set_recvbuf clears_set_recvbuf_used clears_set_sendbuf
  clears_set_sendbuf_used clears_set_application_path
  clears_set_command_line clears_set_working_directory
  clears_set_stdin_pipe clears_set_process_None
  clears_set_stdout_pipe_None clears_set_stderr_pipe_None
  clears_set_output_pipe_None clears_copy_struct_bytes clears_drain_frame
  keeps_process_set_stdin_pipe keeps_process_set_stdout_pipe
  keeps_process_set_stderr_pipe : inv.

(** Steps through a chain of field updates and quiet actions. *)
Ltac inv_steps :=
  repeat first
    [ assumption
    | apply inv_record_quiet; [exact I|]
    | apply inv_assign_clears; [solve [auto with inv]|]
    | apply inv_with_next_connection_id
    | apply inv_with_next_handle; [simpl; lia|] ].

(** ** The invariant: the functions of the source *)

Lemma connection_close_inv (idx : nat) (s : Server) :
  Inv s -> 1 <= num_connections s ->
  post (connection_close idx s) (fun _ s' => Inv s').
Proof.
  intros HI H1. pose proof (inv_count s HI) as Hc.
  unfold connection_close, bind, connection, get, update, emit, modify.
  destruct (process (connection_at s idx)) as [p|]; simpl;
    (apply inv_with_num_connections_le;
     [simpl; apply size_t_pred; lia|inv_steps]).
Qed.

Lemma connection_close_false (idx : nat) (s : Server)
  (Q : bool -> Server -> Prop) :
  Inv s -> 1 <= num_connections s ->
  (forall s', Inv s' -> Q false s') ->
  post ((do connection_close idx then ret false) s) Q.
Proof.
  intros HI H1 HQ. eapply post_bind.
  - apply connection_close_inv; assumption.
  - intros [] s' HI'. apply HQ. exact HI'.
Qed.

Lemma connection_flush_inv (idx : nat) (env : SendResult) (s : Server) :
  Inv s -> Z.of_nat idx < num_connections s ->
  post (connection_flush idx env s)
    (fun r s' => Inv s' /\
       (r = true -> num_connections s' = num_connections s /\
                    trace s' = trace s)).
Proof.
  intros HI Hl. unfold connection_flush.
  eapply post_bind with (Q1 := fun c s1 => s1 = s). { reflexivity. }
  intros c s1 ->.
  eapply post_bind with
    (Q1 := fun ok s1 => Inv s1 /\
             (ok = true -> num_connections s1 = num_connections s /\
                           trace s1 = trace s)).
  - destruct (0 <? sendbuf_used c).
    + destruct env as [n|error].
      * unfold bind, update, modify, ret. simpl. split; [inv_steps|auto].
      * destruct (negb (error =? WSAEWOULDBLOCK)).
        -- apply connection_close_false; [exact HI|lia|].
           intros s' HI'. split; [exact HI'|discriminate].
        -- simpl. auto.
    + simpl. auto.
  - intros ok s1 [HI1 Hk]. destruct ok.
    + destruct (Hk eq_refl) as [En Et].
      unfold bind, connection.
      destruct ((sendbuf_used (connection_at s1 idx) =? 0)
                && (state (connection_at s1 idx) =? CS_CLOSING)).
      * apply connection_close_false; [exact HI1|lia|].
        intros s' HI'. split; [exact HI'|discriminate].
      * simpl. auto.
    + simpl. split; [exact HI1|discriminate].
Qed.

Lemma post_modify_bind {B : Type} (f : Server -> Server)
  (k : unit -> M B) (s : Server) (Q : B -> Server -> Prop) :
  post (k tt (f s)) Q -> post (bind (modify f) k s) Q.
Proof. intros H. exact H. Qed.

Lemma post_connection_bind {B : Type} (idx : nat)
  (k : Connection -> M B) (s : Server) (Q : B -> Server -> Prop) :
  post (k (connection_at s idx) s) Q -> post (bind (connection idx) k s) Q.
Proof. intros H. exact H. Qed.

Lemma idle_assign_clears (idx : nat) (f : Connection -> Connection)
  (s : Server) :
  clears f -> idle (connection_at s idx) ->
  idle (connection_at (assign idx f s) idx).
Proof.
  intros Hf Hi.
  destruct (connection_at_assign_cases idx f s idx) as [E|[_ E]];
    rewrite E; [exact Hi|apply clears_idle; assumption].
Qed.

Lemma connection_write_inv (idx : nat) (cmd : byte) (data : list byte)
  (env : SendResult) (s : Server) :
  Inv s -> Z.of_nat idx < num_connections s ->
  ~ settled (trace s) idx ->
  (cmd = "X"%byte -> idle (connection_at s idx)) ->
  post (connection_write idx cmd data env s)
    (fun r s' => Inv s' /\
       (r = true -> num_connections s' = num_connections s /\
                    trace s' = Queued idx cmd data :: trace s)).
Proof.
  intros HI Hl Hopen Hx. unfold connection_write.
  destruct (65535 <? int (Z.of_nat (length data))); [exact I|].
  apply post_connection_bind.
  destruct (size_t (SENDBUF_SIZE - sendbuf_used (connection_at s idx))
            <? size_t (sizeof_MessageHeader + int (Z.of_nat (length data)))).
  - apply connection_close_false; [exact HI|lia|].
    intros s' HI'. split; [exact HI'|discriminate].
  - unfold update, emit.
    apply post_modify_bind. apply post_modify_bind. apply post_modify_bind.
    eapply post_weaken.
    + apply connection_flush_inv; [|exact Hl].
      apply inv_queued; [exact Hopen| |inv_steps].
      intros Ex _.
      apply idle_assign_clears; [auto with inv|].
      apply idle_assign_clears; [auto with inv|]. apply Hx. exact Ex.
    + intros r s' [HI' Hk]. split; [exact HI'|exact Hk].
Qed.

Lemma live_in_table (idx : nat) (s : Server) :
  Inv s -> Z.of_nat idx < num_connections s ->
  (idx < length (connections s))%nat.
Proof.
  intros HI Hl. pose proof (inv_table s HI) as Ht.
  pose proof (inv_count s HI) as Hc.
  unfold table_ok, MAX_CONNECTIONS in *. lia.
Qed.

Lemma open_of_output_pipe (idx : nat) (which : OutputPipe)
  (h : PipeReadHandle) (s : Server) :
  Inv s -> Z.of_nat idx < num_connections s ->
  output_pipe which (connection_at s idx) = Some h ->
  ~ settled (trace s) idx.
Proof.
  intros HI Hl Hp Hs.
  destruct (inv_idle s HI idx Hl Hs) as (_ & Ho & He).
  destruct which; simpl in Hp; congruence.
Qed.

Lemma open_of_process (idx : nat) (p : HANDLE) (s : Server) :
  Inv s -> Z.of_nat idx < num_connections s ->
  process (connection_at s idx) = Some p ->
  ~ settled (trace s) idx.
Proof.
  intros HI Hl Hp Hs.
  destruct (inv_idle s HI idx Hl Hs) as (Hn & _). congruence.
Qed.

Lemma handle_eof_inv (idx : nat) (which : OutputPipe) (cmd : byte)
  (h : PipeReadHandle) (env : SendResult) (s : Server) :
  Inv s -> Z.of_nat idx < num_connections s ->
  ~ settled (trace s) idx -> cmd <> "X"%byte ->
  post (handle_eof idx which cmd h env s) (fun _ s' => Inv s').
Proof.
  intros HI Hl Hopen Hc. unfold handle_eof, emit, update.
  apply post_modify_bind. apply post_modify_bind.
  eapply post_bind.
  - apply connection_write_inv.
    + inv_steps.
    + exact Hl.
    + intros Hs. apply Hopen. revert Hs. apply settled_quiet. exact I.
    + intros E. contradiction.
  - intros r s' [HI' _]. exact HI'.
Qed.

Lemma rearm_inv (idx : nat) (which : OutputPipe) (cmd : byte)
  (h : PipeReadHandle) (error : Z) (env : SendResult) (s : Server) :
  Inv s -> Z.of_nat idx < num_connections s ->
  ~ settled (trace s) idx -> cmd <> "X"%byte ->
  post (rearm idx which cmd h error env s) (fun _ s' => Inv s').
Proof.
  intros HI Hl Hopen Hc. unfold rearm, emit.
  apply post_modify_bind.
  destruct (error =? ERROR_BROKEN_PIPE).
  - apply handle_eof_inv; [inv_steps|exact Hl| |exact Hc].
    intros Hs. apply Hopen. revert Hs. apply settled_quiet. exact I.
  - destruct (negb (error =? ERROR_IO_PENDING)); [exact I|].
    simpl. inv_steps.
Qed.

Lemma pipe_read_inv (idx : nat) (which : OutputPipe) (cmd : byte)
  (env : PipeEnv) (s : Server) :
  Inv s -> Z.of_nat idx < num_connections s -> cmd <> "X"%byte ->
  post (pipe_read idx which cmd env s) (fun _ s' => Inv s').
Proof.
  intros HI Hl Hc. unfold pipe_read. apply post_connection_bind.
  destruct (output_pipe which (connection_at s idx)) as [h|] eqn:Eh;
    [|exact I].
  pose proof (open_of_output_pipe idx which h s HI Hl Eh) as Hopen.
  destruct (read_error env =? ERROR_SUCCESS).
  - destruct (Z.of_nat (length (read_data env)) =? 0).
    + apply rearm_inv; assumption.
    + eapply post_bind.
      * apply connection_write_inv; try assumption.
        intros E. contradiction.
      * intros ok s1 [HI1 Hk]. destruct ok; [|exact HI1].
        destruct (Hk eq_refl) as [En Et].
        apply rearm_inv; [exact HI1|lia| |exact Hc].
        rewrite Et. apply not_settled_queued; assumption.
  - destruct (read_error env =? ERROR_BROKEN_PIPE).
    + apply handle_eof_inv; assumption.
    + apply connection_close_inv; [exact HI|lia].
Qed.

Lemma process_exit_inv (idx : nat) (code : Z) (env : SendResult)
  (p : HANDLE) (s : Server) :
  Inv s -> Z.of_nat idx < num_connections s ->
  process (connection_at s idx) = Some p ->
  stdout_pipe (connection_at s idx) = None ->
  stderr_pipe (connection_at s idx) = None ->
  post (process_exit idx code env s) (fun _ s' => Inv s').
Proof.
  intros HI Hl Hp Ho He. unfold process_exit.
  pose proof (open_of_process idx p s HI Hl Hp) as Hopen.
  pose proof (live_in_table idx s HI Hl) as Hin.
  apply post_connection_bind. rewrite Hp. unfold emit, update.
  apply post_modify_bind. apply post_modify_bind. apply post_modify_bind.
  eapply post_bind.
  - apply connection_write_inv.
    + inv_steps.
    + exact Hl.
    + intros Hs. apply Hopen. revert Hs. apply settled_quiet. exact I.
    + intros _. table_simpl. unfold idle. simpl. auto.
  - intros r s' [HI' _]. exact HI'.
Qed.

Lemma post_fresh_bind {B : Type} (k : Z -> M B) (s : Server)
  (Q : B -> Server -> Prop) :
  post (k (next_handle s) (with_next_handle (next_handle s + 1) s)) Q ->
  post (bind fresh_handle k s) Q.
Proof. intros H. exact H. Qed.

Ltac step :=
  first [ apply post_modify_bind
        | apply post_connection_bind
        | apply post_fresh_bind ].

Lemma not_settled_quiet (a : Action) (tr : list Action) (i : nat) :
  quiet a -> ~ settled tr i -> ~ settled (a :: tr) i.
Proof. intros Hq Hn Hs. apply Hn. revert Hs. apply settled_quiet. exact Hq. Qed.

Lemma close_return_false (idx : nat) (s0 s : Server) :
  Inv s -> 1 <= num_connections s ->
  post ((do connection_close idx then ret (Return false)) s) (case_post s0).
Proof.
  intros HI H1. eapply post_bind.
  - apply connection_close_inv; assumption.
  - intros [] s' HI'. split; [exact HI'|]. intros H. congruence.
Qed.

Lemma stored_inv (idx : nat)
  (dst : option (list byte) -> Connection -> Connection) (f : Frame)
  (env : FrameEnv) (s : Server) :
  (forall v, clears (dst v)) ->
  Inv s -> Z.of_nat idx < num_connections s ->
  post (stored idx dst f env s) (case_post s).
Proof.
  intros Hd HI Hl. unfold stored, store_string, update.
  destruct (malloc_ok env).
  - unfold bind, modify, ret. simpl. split; [|reflexivity].
    apply inv_assign_clears; [apply Hd|exact HI].
  - unfold bind at 1. unfold bind at 1. unfold modify, ret.
    apply close_return_false; [|simpl; lia].
    apply inv_assign_clears; [apply Hd|exact HI].
Qed.

Lemma write_stdin_inv (idx : nat) (f : Frame) (env : FrameEnv)
  (s : Server) :
  Inv s -> Z.of_nat idx < num_connections s ->
  post (write_stdin idx f env s) (case_post s).
Proof.
  intros HI Hl. unfold write_stdin, emit, update. step.
  destruct (payload_length f =? 0).
  - step. step. simpl. split; [inv_steps|reflexivity].
  - destruct (stdin_pipe (connection_at s idx)) as [h|].
    + destruct (write_pending env).
      * simpl. split; [exact HI|reflexivity].
      * step. destruct (negb (write_initiate env =? ERROR_IO_PENDING)).
        -- apply close_return_false; [inv_steps|simpl; lia].
        -- simpl. split; [inv_steps|reflexivity].
    + simpl. split; [exact HI|reflexivity].
Qed.

Lemma spawn_child_inv (idx : nat) (env : FrameEnv)
  (stdin_read : PipeReadHandle) (stdin_write : PipeWriteHandle)
  (stdout_read : PipeReadHandle) (stdout_write : PipeWriteHandle)
  (stderr_read : PipeReadHandle) (stderr_write : PipeWriteHandle)
  (s0 s : Server) :
  Inv s -> Z.of_nat idx < num_connections s ->
  num_connections s = num_connections s0 ->
  post (spawn_child idx env stdin_read stdin_write stdout_read
          stdout_write stderr_read stderr_write s) (case_post s0).
Proof.
  intros HI Hl Hn. unfold spawn_child, emit, update. step.
  destruct (application_path (connection_at s idx)) as [path|]; [|exact I].
  destruct (process_created env).
  - repeat step.
    assert (Hopen :
      forall tr a4 a3 a2 a1 p pth cmdline cwd hin hout herr,
        quiet a4 -> quiet a3 -> quiet a2 -> quiet a1 ->
        frames_ok tr idx ->
        ~ settled
            (a4 :: a3 :: a2 :: a1 ::
             Spawned idx p pth cmdline cwd hin hout herr :: tr) idx).
    { intros tr a4 a3 a2 a1 p pth cmdline cwd hin hout herr Q4 Q3 Q2 Q1 Hf.
      repeat (apply not_settled_quiet; [assumption|]).
      apply not_settled_spawned. exact Hf. }
    assert (HI4 :
      Inv
        (assign idx (set_stderr_pipe (Some stderr_read))
           (assign idx (set_stdout_pipe (Some stdout_read))
              (assign idx (set_stdin_pipe (Some stdin_write))
                 (assign idx (set_process (Some (next_handle s)))
                    (record (CloseHandle (next_handle s + 1))
                       (record (Pipe9xWriteClose (Some stderr_write))
                          (record (Pipe9xWriteClose (Some stdout_write))
                             (record (Pipe9xReadClose stdin_read)
                                (record
                                   (Spawned idx (next_handle s)
                                      (c_str
                                         (if negb (strchr path "\")
                                             && file_missing env
                                          then
                                            match path_found env with
                                            | Some found => found
                                            | None => path
                                            end
                                          else path))
                                      (command_line (connection_at s idx))
                                      (working_directory
                                         (connection_at s idx))
                                      stdin_read stdout_write stderr_write)
                                   (with_next_handle (next_handle s + 1 + 1)
                                      (with_next_handle (next_handle s + 1)
                                         s)))))))))))).
    { apply inv_assign_open;
        [auto with inv|apply Hopen; try exact I; apply (inv_frames s HI)|].
      apply inv_assign_open;
        [auto with inv|apply Hopen; try exact I; apply (inv_frames s HI)|].
      apply inv_assign_open;
        [auto with inv|apply Hopen; try exact I; apply (inv_frames s HI)|].
      apply inv_assign_process.
      - apply Hopen; try exact I. apply (inv_frames s HI).
      - simpl. lia.
      - intros j Hj Hp. simpl in Hj.
        pose proof (inv_fresh s HI j (next_handle s) Hj Hp). lia.
      - inv_steps. apply inv_spawned. inv_steps. }
    destruct (negb (stdout_initiate env =? ERROR_IO_PENDING)); [exact I|].
    step.
    destruct (negb (stderr_initiate env =? ERROR_IO_PENDING)); [exact I|].
    simpl. split; [inv_steps|intros _; exact Hn].
  - apply close_return_false; [exact HI|lia].
Qed.

Lemma pipe9x_create_inv (pipe_error : Z) (s : Server) :
  Inv s ->
  post (pipe9x_create pipe_error s)
    (fun _ s' => Inv s' /\ num_connections s' = num_connections s).
Proof.
  intros HI. unfold pipe9x_create, emit.
  destruct (pipe_error =? ERROR_SUCCESS).
  - repeat step. simpl. split; [inv_steps|reflexivity].
  - simpl. split; [exact HI|reflexivity].
Qed.

Lemma execute_inv (idx : nat) (env : FrameEnv) (s : Server) :
  Inv s -> Z.of_nat idx < num_connections s ->
  post (execute idx env s) (case_post s).
Proof.
  intros HI Hl. unfold execute, emit.
  eapply post_bind; [apply pipe9x_create_inv; exact HI|].
  intros [[stdin_read stdin_write]|] s1 [HI1 E1].
  - eapply post_bind; [apply pipe9x_create_inv; exact HI1|].
    intros [[stdout_read stdout_write]|] s2 [HI2 E2].
    + eapply post_bind; [apply pipe9x_create_inv; exact HI2|].
      intros [[stderr_read stderr_write]|] s3 [HI3 E3].
      * apply spawn_child_inv; [exact HI3|lia|lia].
      * repeat step. apply close_return_false; [inv_steps|simpl; lia].
    + repeat step. apply close_return_false; [inv_steps|simpl; lia].
  - apply close_return_false; [exact HI1|lia].
Qed.

Lemma handle_command_inv (idx : nat) (f : Frame) (env : FrameEnv)
  (s : Server) :
  Inv s -> Z.of_nat idx < num_connections s ->
  post (handle_command idx f env s) (case_post s).
Proof.
  intros HI Hl. unfold handle_command.
  destruct (Byte.eqb (command f) "A");
    [apply stored_inv; auto with inv|].
  destruct (Byte.eqb (command f) "C");
    [apply stored_inv; auto with inv|].
  destruct (Byte.eqb (command f) "W");
    [apply stored_inv; auto with inv|].
  destruct (Byte.eqb (command f) "E"); [apply execute_inv; assumption|].
  destruct (Byte.eqb (command f) "I"); [apply write_stdin_inv; assumption|].
  apply close_return_false; [exact HI|lia].
Qed.

Lemma read_frames_inv (fuel : nat) (idx : nat) (env : nat -> FrameEnv)
  (n : nat) (s0 s : Server) :
  Inv s -> Z.of_nat idx < num_connections s ->
  num_connections s = num_connections s0 ->
  post (read_frames fuel idx env n s) (call_post s0).
Proof.
  revert n s. induction fuel as [|fuel IH]; intros n s HI Hl Hn.
  - exact I.
  - simpl. step.
    destruct (parse_frame (connection_at s idx)) as [f|].
    + eapply post_bind; [apply handle_command_inv; assumption|].
      intros exit s1 [HI1 Hk]. destruct exit as [|result].
      * unfold update. step.
        assert (E1 : num_connections s1 = num_connections s)
          by (apply Hk; discriminate).
        apply IH; [inv_steps|simpl; lia|simpl; lia].
      * simpl. split; [exact HI1|]. intros ->.
        rewrite Hk by discriminate. exact Hn.
    + simpl. split; [exact HI|intros _; exact Hn].
Qed.

Lemma connection_close_false_call (idx : nat) (s0 s : Server) :
  Inv s -> 1 <= num_connections s ->
  post ((do connection_close idx then ret false) s) (call_post s0).
Proof.
  intros HI H1. apply connection_close_false; [exact HI|exact H1|].
  intros s' HI'. split; [exact HI'|discriminate].
Qed.

Lemma connection_read_inv (idx : nat) (rcv : RecvResult)
  (env : nat -> FrameEnv) (s : Server) :
  Inv s -> Z.of_nat idx < num_connections s ->
  post (connection_read idx rcv env s) (call_post s).
Proof.
  intros HI Hl. unfold connection_read, update. step.
  destruct (recvbuf_used (connection_at s idx) =? RECVBUF_SIZE).
  - simpl. split; [exact HI|reflexivity].
  - destruct rcv as [available|error].
    + destruct (Z.of_nat
                  (length
                     (take
                        (Z.to_nat
                           (RECVBUF_SIZE
                            - recvbuf_used (connection_at s idx)))
                        available)) <=? 0).
      * apply connection_close_false_call; [exact HI|lia].
      * step. step. apply read_frames_inv; [inv_steps|exact Hl|reflexivity].
    + destruct (error =? WSAEWOULDBLOCK).
      * simpl. split; [exact HI|reflexivity].
      * apply connection_close_false_call; [exact HI|lia].
Qed.

Lemma connection_flush_call (idx : nat) (env : SendResult) (s : Server) :
  Inv s -> Z.of_nat idx < num_connections s ->
  post (connection_flush idx env s) (call_post s).
Proof.
  intros HI Hl. eapply post_weaken.
  - apply connection_flush_inv; assumption.
  - intros r s' [HI' Hk]. split; [exact HI'|]. intros E.
    apply (proj1 (Hk E)).
Qed.

Lemma post_get_bind {B : Type} (k : Server -> M B) (s : Server)
  (Q : B -> Server -> Prop) :
  post (k s s) Q -> post (bind get k s) Q.
Proof. intros H. exact H. Qed.

Lemma service_sockets_inv (fuel i k : nat) (env : nat -> SocketEnv)
  (s : Server) :
  (i + fuel <= 17)%nat -> Inv s ->
  post (service_sockets fuel i k env s) (fun _ s' => Inv s').
Proof.
  revert i k s. induction fuel as [|fuel IH]; intros i k s Hb HI.
  - exact I.
  - simpl. apply post_get_bind.
    destruct (size_t (Z.of_nat i) <? num_connections s) eqn:E.
    + apply Z.ltb_lt in E. rewrite size_t_small in E by lia.
      eapply post_bind; [apply connection_flush_call; assumption|].
      intros flushed s1 [HI1 Hk1]. destruct flushed.
      * eapply post_bind;
          [apply connection_read_inv; [exact HI1|rewrite Hk1; auto]|].
        intros read s2 [HI2 Hk2]. destruct read; apply IH; auto; lia.
      * apply IH; auto; lia.
    + simpl. exact HI.
Qed.

Lemma accepted_frames_same (idx : nat) (cid : Z) (tr : list Action) :
  frames_queued idx (Accepted idx cid :: tr) = [] /\
  children_spawned idx (Accepted idx cid :: tr) = 0%nat.
Proof. simpl. rewrite Nat.eqb_refl. split; reflexivity. Qed.

Lemma accepted_frames_other (idx i : nat) (cid : Z) (tr : list Action) :
  i <> idx ->
  frames_queued i (Accepted idx cid :: tr) = frames_queued i tr /\
  children_spawned i (Accepted idx cid :: tr) = children_spawned i tr.
Proof.
  intros H. simpl. destruct (idx =? i)%nat eqn:E.
  - apply Nat.eqb_eq in E. congruence.
  - split; reflexivity.
Qed.

(** Taking the first free slot: whatever the slot held before, the
    session that starts there is idle and has queued nothing. *)
Lemma inv_accepted (s s1 : Server) (cid : Z) :
  Inv s ->
  num_connections s < MAX_CONNECTIONS ->
  table_ok s1 ->
  num_connections s1 = num_connections s + 1 ->
  next_handle s1 = next_handle s ->
  trace s1 = trace s ->
  idle (connection_at s1 (Z.to_nat (num_connections s))) ->
  (forall j, j <> Z.to_nat (num_connections s) ->
             connection_at s1 j = connection_at s j) ->
  Inv (record (Accepted (Z.to_nat (num_connections s)) cid) s1).
Proof.
  intros [Ht Hc Hf Hi Hn Hd] Hlt Ht1 En Eh Et Hidle Hsame.
  set (idx := Z.to_nat (num_connections s)) in *.
  assert (Hlive : forall i, Z.of_nat i < num_connections s1 ->
                            i <> idx -> Z.of_nat i < num_connections s)
    by (intros i H1 H2; unfold idx in H2; lia).
  constructor.
  - exact Ht1.
  - simpl. lia.
  - intros i. unfold frames_ok.
    change (trace (record (Accepted idx cid) s1))
      with (Accepted idx cid :: trace s1).
    destruct (decide (i = idx)) as [->|Hne].
    + destruct (accepted_frames_same idx cid (trace s1)) as [-> ->].
      split; [reflexivity|intros _; apply exit_frame_ends_nil].
    + destruct (accepted_frames_other idx i cid (trace s1) Hne) as [-> ->].
      rewrite Et. apply Hf.
  - intros i Hl Hs. rewrite connection_at_record.
    destruct (decide (i = idx)) as [->|Hne]; [exact Hidle|].
    rewrite Hsame by exact Hne. apply Hi; [apply Hlive; assumption|].
    unfold settled in *.
    change (trace (record (Accepted idx cid) s1))
      with (Accepted idx cid :: trace s1) in Hs.
    destruct (accepted_frames_other idx i cid (trace s1) Hne) as [E1 E2].
    rewrite E1, E2, Et in Hs. exact Hs.
  - intros i p Hl Hp. rewrite connection_at_record in Hp.
    change (next_handle (record (Accepted idx cid) s1))
      with (next_handle s1). rewrite Eh.
    destruct (decide (i = idx)) as [->|Hne].
    + destruct Hidle as (Hnone & _). congruence.
    + rewrite Hsame in Hp by exact Hne.
      apply (Hn i p); [apply Hlive; assumption|exact Hp].
  - intros i j p Hli Hlj Hpi Hpj. rewrite connection_at_record in Hpi, Hpj.
    destruct (decide (i = idx)) as [->|Hni].
    + destruct Hidle as (Hnone & _). congruence.
    + destruct (decide (j = idx)) as [->|Hnj].
      * destruct Hidle as (Hnone & _). congruence.
      * rewrite Hsame in Hpi, Hpj by assumption.
        apply (Hd i j p); try assumption; apply Hlive; assumption.
Qed.

Lemma connection_init_inv (newsock : Z) (s : Server) :
  Inv s -> post (connection_init newsock s) (fun _ s' => Inv s').
Proof.
  intros HI. pose proof (inv_table s HI) as Ht.
  pose proof (inv_count s HI) as Hc.
  unfold connection_init. apply post_get_bind.
  destruct (num_connections s =? MAX_CONNECTIONS) eqn:E.
  - simpl. inv_steps.
  - apply Z.eqb_neq in E. unfold update, emit.
    repeat step. simpl.
    unfold table_ok, MAX_CONNECTIONS in *.
    apply inv_accepted.
    + exact HI.
    + unfold MAX_CONNECTIONS. lia.
    + unfold table_ok, MAX_CONNECTIONS. table_len.
    + simpl. apply size_t_small. lia.
    + reflexivity.
    + reflexivity.
    + table_simpl. unfold idle. simpl. auto.
    + intros j Hj. table_simpl. reflexivity.
Qed.

Lemma WaitHandle_eqb_eq (a b : WaitHandle) :
  WaitHandle_eqb a b = true -> a = b.
Proof.
  destruct a, b; simpl; intros H; try discriminate; try reflexivity;
    apply Z.eqb_eq in H; congruence.
Qed.

Lemma process_handle_in_session (pending : PipeWriteHandle -> bool)
  (c : Connection) (p : HANDLE) :
  In (process_handle p) (session_wait_handles pending c) ->
  process c = Some p /\ stdout_pipe c = None /\ stderr_pipe c = None.
Proof.
  unfold session_wait_handles.
  destruct (size_t (SENDBUF_SIZE - sendbuf_used c)
              >=? size_t (sizeof_MessageHeader + PIPE_READ_SIZE));
    destruct (size_t (SENDBUF_SIZE - sendbuf_used c)
                >=? size_t (sizeof_MessageHeader + sizeof_int32_t));
    destruct (stdout_pipe c), (stderr_pipe c), (process c),
      (stdin_pipe c) as [w|];
    try destruct (pending w); simpl; intuition congruence.
Qed.

Lemma wait_handles_process_gate (pending : PipeWriteHandle -> bool)
  (s : Server) (w : WaitHandle) :
  In w (wait_handles pending s) -> process_gate s w.
Proof.
  intros Hin p ->. apply wait_handles_sessions in Hin.
  destruct Hin as [H|(j & Hj & Hin)]; [discriminate H|].
  exists j. split; [exact Hj|].
  apply (process_handle_in_session pending). exact Hin.
Qed.

Lemma dispatch_handle_inv (n i : nat) (woke_handle : WaitHandle)
  (env : LoopEnv) (s : Server) :
  Inv s -> process_gate s woke_handle ->
  Z.of_nat (i + n) = num_connections s ->
  post (dispatch_handle n i woke_handle env s) (fun _ s' => Inv s').
Proof.
  intros HI Hg. revert i. induction n as [|n IH]; intros i Hn.
  - simpl. exact HI.
  - simpl. step.
    assert (Hl : Z.of_nat i < num_connections s) by lia.
    destruct (match stdout_pipe (connection_at s i) with
              | Some h => WaitHandle_eqb woke_handle (pipe9x_read_event h)
              | None => false
              end).
    { apply pipe_read_inv; [exact HI|exact Hl|discriminate]. }
    destruct (match stderr_pipe (connection_at s i) with
              | Some h => WaitHandle_eqb woke_handle (pipe9x_read_event h)
              | None => false
              end).
    { apply pipe_read_inv; [exact HI|exact Hl|discriminate]. }
    destruct (match stdin_pipe (connection_at s i) with
              | Some h => WaitHandle_eqb woke_handle (pipe9x_write_event h)
              | None => false
              end).
    { destruct (negb (write_result env =? ERROR_SUCCESS)).
      - apply connection_close_inv; [exact HI|lia].
      - simpl. exact HI. }
    destruct (process (connection_at s i)) as [p|] eqn:Ep.
    + destruct (WaitHandle_eqb woke_handle (process_handle p)) eqn:Ew.
      * apply WaitHandle_eqb_eq in Ew.
        destruct (Hg p Ew) as (j & Hj & Hpj & Hoj & Hej).
        assert (j = i) as -> by (apply (inv_distinct s HI j i p); assumption).
        apply (process_exit_inv i _ _ p); assumption.
      * apply IH. lia.
    + apply IH. lia.
Qed.

Lemma main_iteration_inv (env : LoopEnv) (s : Server) :
  Inv s -> post (main_iteration env s) (fun _ s' => Inv s').
Proof.
  intros HI. unfold main_iteration. apply post_get_bind.
  destruct (wait_result env =? WAIT_FAILED); [exact I|].
  destruct (wait_result env =? WAIT_OBJECT_0).
  - eapply post_bind with (Q1 := fun _ s1 => Inv s1).
    + destruct (accepted env) as [newsock|].
      * apply connection_init_inv. exact HI.
      * simpl. exact HI.
    + intros [] s1 HI1. apply post_get_bind.
      apply service_sockets_inv; [|exact HI1].
      pose proof (inv_count s1 HI1) as Hc. unfold MAX_CONNECTIONS in Hc. lia.
  - destruct (negb (WAIT_OBJECT_0 <? wait_result env)); [exact I|].
    destruct (negb (wait_result env
                    <? WAIT_OBJECT_0
                       + Z.of_nat (length (wait_handles (pending env) s))));
      [exact I|].
    destruct (wait_handles (pending env) s
                !! Z.to_nat (wait_result env - WAIT_OBJECT_0))
      as [woke_handle|] eqn:Ew; [|exact I].
    apply dispatch_handle_inv; [exact HI| |].
    + apply (wait_handles_process_gate (pending env)).
      apply list_elem_of_In. apply list_elem_of_lookup. eauto.
    + pose proof (inv_count s HI). lia.
Qed.

Lemma main_loop_inv (envs : list LoopEnv) (s : Server) :
  Inv s -> post (main_loop envs s) (fun _ s' => Inv s').
Proof.
  revert s. induction envs as [|env rest IH]; intros s HI.
  - simpl. exact HI.
  - simpl. eapply post_bind; [apply main_iteration_inv; exact HI|].
    intros [] s1 HI1. apply IH. exact HI1.
Qed.

Lemma inv_initial_server : Inv initial_server.
Proof.
  constructor.
  - reflexivity.
  - simpl. unfold MAX_CONNECTIONS. lia.
  - intros i. split; [reflexivity|]. intros _. apply exit_frame_ends_nil.
  - intros i Hl. simpl in Hl. lia.
  - intros i p Hl. simpl in Hl. lia.
  - intros i j p Hl. simpl in Hl. lia.
Qed.

Lemma reachable_inv (envs : list LoopEnv) (s : Server) :
  main_loop envs initial_server = Ok tt s -> Inv s.
Proof.
  intros H. pose proof (main_loop_inv envs initial_server inv_initial_server)
    as Hp. rewrite H in Hp. exact Hp.
Qed.

Lemma exit_frame_ends_once (l : list byte) :
  exit_frame_ends l -> exit_frame_once_and_last l.
Proof.
  intros H. split.
  - induction l as [|a l IH]; [simpl; lia|].
    assert (Hl : exit_frame_ends l).
    { intros before after E. apply (H (a :: before) after).
      rewrite E. reflexivity. }
    specialize (IH Hl). simpl.
    destruct (Byte.byte_eq_dec a "X") as [->|Hne]; [|exact IH].
    rewrite (H [] l eq_refl). simpl. lia.
  - intros before after E. rewrite (H before after E). auto.
Qed.

(** ** Properties of every run of the event loop *)

(** On every run of the loop and for every slot on which at most one
    child was spawned since the slot was taken: the exit frame is queued
    at most once, no output frame is queued after it, and once it is
    queued a live session has neither child nor output pipes. *)
Theorem exit_frame_last_after_one_spawn (envs : list LoopEnv) (s : Server)
  (slot : nat) :
  main_loop envs initial_server = Ok tt s ->
  (children_spawned slot (trace s) <= 1)%nat ->
  exit_frame_once_and_last (frames_queued slot (trace s)) /\
  (In "X"%byte (frames_queued slot (trace s)) ->
   Z.of_nat slot < num_connections s ->
   idle (connection_at s slot)).
Proof.
  intros Hrun Hone. pose proof (reachable_inv envs s Hrun) as HI.
  split.
  - apply exit_frame_ends_once.
    apply (proj2 (inv_frames s HI slot)). exact Hone.
  - intros Hx Hl. apply (inv_idle s HI slot Hl).
    split; [exact Hone|right; exact Hx].
Qed.

(** A session runs one child to its exit: "O", "E" and "X" are queued,
    in that order. *)
Lemma exit_frame_last_after_one_spawn_witness :
  main_loop session_to_exit initial_server
    = Ok tt (server_after session_to_exit) /\
  (children_spawned 0 (trace (server_after session_to_exit)) <= 1)%nat /\
  frames_queued 0 (trace (server_after session_to_exit))
    = ["O"; "E"; "X"]%byte /\
  exit_frame_once_and_last
    (frames_queued 0 (trace (server_after session_to_exit))).
Proof.
  assert (Hrun : main_loop session_to_exit initial_server
                 = Ok tt (server_after session_to_exit))
    by (vm_compute; reflexivity).
  assert (Hone : (children_spawned 0 (trace (server_after session_to_exit))
                  <= 1)%nat)
    by (vm_compute; lia).
  split; [exact Hrun|]. split; [exact Hone|].
  split; [vm_compute; reflexivity|].
  exact (proj1 (exit_frame_last_after_one_spawn session_to_exit
                  (server_after session_to_exit) 0 Hrun Hone)).
Defined.

(** Without the bound on spawns the property fails: a second [E] frame,
    received while the exit frame is still in the send buffer, spawns a
    second child whose output is queued behind the exit frame. *)
Lemma output_follows_exit_after_second_execute :
  main_loop session_executes_twice initial_server
    = Ok tt (server_after session_executes_twice) /\
  children_spawned 0 (trace (server_after session_executes_twice)) = 2%nat /\
  frames_queued 0 (trace (server_after session_executes_twice))
    = ["O"; "E"; "X"; "O"]%byte /\
  ~ exit_frame_once_and_last
      (frames_queued 0 (trace (server_after session_executes_twice))).
Proof.
  split; [vm_compute; reflexivity|]. split; [vm_compute; reflexivity|].
  assert (E : frames_queued 0 (trace (server_after session_executes_twice))
              = ["O"; "E"; "X"; "O"]%byte) by (vm_compute; reflexivity).
  split; [exact E|]. rewrite E. intros [_ H].
  destruct (H ["O"; "E"]%byte ["O"%byte] eq_refl) as [Ho _].
  apply Ho. left. reflexivity.
Qed.

(** On every run of the loop the session count stays between 0 and
    [MAX_CONNECTIONS], the wait set assembled from the resulting state
    fits the [wait_handles] array, and no two live sessions hold the same
    process handle. *)
Theorem session_table_bounded_on_every_run (envs : list LoopEnv)
  (s : Server) (writing : PipeWriteHandle -> bool) :
  main_loop envs initial_server = Ok tt s ->
  0 <= num_connections s <= MAX_CONNECTIONS /\
  length (connections s) = Z.to_nat MAX_CONNECTIONS /\
  Z.of_nat (length (wait_handles writing s)) <= wait_handles_capacity /\
  (forall i j p,
     Z.of_nat i < num_connections s -> Z.of_nat j < num_connections s ->
     process (connection_at s i) = Some p ->
     process (connection_at s j) = Some p -> i = j).
Proof.
  intros Hrun. pose proof (reachable_inv envs s Hrun) as HI.
  pose proof (inv_count s HI) as Hc.
  split; [exact Hc|]. split; [exact (inv_table s HI)|].
  split; [|exact (inv_distinct s HI)].
  unfold wait_handles_capacity, MAX_CONNECTIONS in *.
  unfold wait_handles. simpl length.
  pose proof (flat_map_length_bound
                (fun i => session_wait_handles writing (connection_at s i))
                3 (seq 0 (Z.to_nat (num_connections s)))
                (fun i => session_wait_handles_length writing _)) as H.
  rewrite length_seq in H. lia.
Qed.

Lemma session_table_bounded_on_every_run_witness :
  main_loop session_to_exit initial_server
    = Ok tt (server_after session_to_exit) /\
  0 <= num_connections (server_after session_to_exit) <= MAX_CONNECTIONS.
Proof.
  assert (Hrun : main_loop session_to_exit initial_server
                 = Ok tt (server_after session_to_exit))
    by (vm_compute; reflexivity).
  split; [exact Hrun|].
  exact (proj1 (session_table_bounded_on_every_run session_to_exit
                  (server_after session_to_exit) (fun _ => false) Hrun)).
Defined.

(** ** The wait set, exactly *)

(** For a session whose send buffer is within capacity, the handles it
    contributes to the wait set are exactly: each present output pipe's
    read event when at least 3 + PIPE_READ_SIZE bytes are spare; the
    process handle when the child is present, both output pipes are
    absent and at least 3 + 4 bytes are spare; the stdin write event when
    a write is in flight.  The socket event is never among them. *)
Theorem session_wait_handles_exact (writing : PipeWriteHandle -> bool)
  (c : Connection) :
  sendbuf_ok c ->
  (forall h,
     In (pipe9x_read_event h) (session_wait_handles writing c) <->
     (stdout_pipe c = Some h \/ stderr_pipe c = Some h) /\
     sizeof_MessageHeader + PIPE_READ_SIZE <= sendbuf_spare c) /\
  (forall p,
     In (process_handle p) (session_wait_handles writing c) <->
     process c = Some p /\ stdout_pipe c = None /\ stderr_pipe c = None /\
     sizeof_MessageHeader + sizeof_int32_t <= sendbuf_spare c) /\
  (forall h,
     In (pipe9x_write_event h) (session_wait_handles writing c) <->
     stdin_pipe c = Some h /\ writing h = true) /\
  ~ In wsevent (session_wait_handles writing c).
Proof.
  intros Hok. unfold sendbuf_ok, SENDBUF_SIZE in Hok.
  unfold sendbuf_spare, session_wait_handles, sizeof_MessageHeader,
    PIPE_READ_SIZE, sizeof_int32_t, SENDBUF_SIZE.
  rewrite (size_t_small (128 * 1024 - sendbuf_used c)) by lia.
  rewrite !size_t_small by lia.
  rewrite !Z.geb_leb.
  destruct (3 + 32768 <=? 128 * 1024 - sendbuf_used c) eqn:E1;
    destruct (3 + 4 <=? 128 * 1024 - sendbuf_used c) eqn:E2;
    try apply Z.leb_le in E1; try apply Z.leb_gt in E1;
    try apply Z.leb_le in E2; try apply Z.leb_gt in E2;
    destruct (stdout_pipe c) as [o|], (stderr_pipe c) as [e|],
      (process c) as [q|], (stdin_pipe c) as [w|];
    try destruct (writing w) eqn:Ew; simpl;
    (split; [|split; [|split]]);
    try (intros h; split; intros H);
    try (intros H);
    intuition (try congruence; try lia).
Qed.

Lemma session_wait_handles_exact_witness :
  sendbuf_ok (connection_at running_server 0) /\
  (In (pipe9x_read_event 5)
      (session_wait_handles (fun _ => false)
         (connection_at running_server 0)) <->
   (stdout_pipe (connection_at running_server 0) = Some 5 \/
    stderr_pipe (connection_at running_server 0) = Some 5) /\
   sizeof_MessageHeader + PIPE_READ_SIZE
   <= sendbuf_spare (connection_at running_server 0)).
Proof.
  assert (H : sendbuf_ok (connection_at running_server 0))
    by (unfold sendbuf_ok; simpl; unfold SENDBUF_SIZE; lia).
  split; [exact H|].
  exact (proj1 (session_wait_handles_exact (fun _ => false)
                  (connection_at running_server 0) H) 5).
Defined.

(** ** Destroying a session *)



(** ** connection_flush *)

Lemma andb_false_of (a b : Z) (c d : Z) :
  a <> b \/ c <> d -> (a =? b) && (c =? d) = false.
Proof.
  intros [H|H].
  - apply Z.eqb_neq in H. rewrite H. reflexivity.
  - apply Z.eqb_neq in H. rewrite H. apply andb_false_r.
Qed.

(** When the socket takes [n] bytes and the session is not a drained
    Closing one, [connection_flush] returns [true]: the send buffer
    loses exactly the bytes taken (no more than it held) and the bytes
    not yet sent move to its head in their order; nothing else
    changes. *)
Theorem connection_flush_keeps_unsent (idx n : nat) (s : Server) :
  table_ok s -> (idx < 16)%nat ->
  0 < sendbuf_used (connection_at s idx) ->
  Z.of_nat n < sendbuf_used (connection_at s idx) \/
    state (connection_at s idx) <> CS_CLOSING ->
  exists s',
    connection_flush idx (SendTakes n) s = Ok true s' /\
    sendbuf_used (connection_at s' idx)
    = sendbuf_used (connection_at s idx)
      - Z.min (Z.of_nat n) (sendbuf_used (connection_at s idx)) /\
    mem_read (sendbuf (connection_at s' idx)) 0
      (Z.to_nat (sendbuf_used (connection_at s' idx)))
    = mem_read (sendbuf (connection_at s idx))
        (Z.to_nat (Z.min (Z.of_nat n) (sendbuf_used (connection_at s idx))))
        (Z.to_nat (sendbuf_used (connection_at s' idx))) /\
    state (connection_at s' idx) = state (connection_at s idx) /\
    process (connection_at s' idx) = process (connection_at s idx) /\
    trace s' = trace s /\
    num_connections s' = num_connections s /\
    (forall j, j <> idx -> connection_at s' j = connection_at s j).
Proof.
  intros Ht Hi Hpos Hkeep. unfold table_ok, MAX_CONNECTIONS in Ht.
  unfold connection_flush, bind, connection.
  apply Z.ltb_lt in Hpos as Hpos'. rewrite Hpos'.
  unfold update, modify, ret. table_simpl. simpl.
  rewrite andb_false_of by (destruct Hkeep; [left|right]; lia || assumption).
  eexists. split; [reflexivity|].
  split; [table_simpl; reflexivity|].
  split; [table_simpl; simpl; apply mem_read_memmove_head|].
  split; [table_simpl; reflexivity|].
  split; [table_simpl; reflexivity|].
  split; [reflexivity|]. split; [reflexivity|].
  intros j Hj. table_simpl. reflexivity.
Qed.

(** The send buffer built by [session_to_exit] holds 13 bytes; the
    socket takes 5 of them. *)
Lemma connection_flush_keeps_unsent_witness :
  exists s',
    connection_flush 0 (SendTakes 5) (server_after session_to_exit)
      = Ok true s' /\
    sendbuf_used (connection_at s' 0) = 8.
Proof.
  destruct (connection_flush_keeps_unsent 0 5 (server_after session_to_exit))
    as (s' & Hrun & Hused & _).
  - reflexivity.
  - lia.
  - vm_compute. reflexivity.
  - left. vm_compute. reflexivity.
  - exists s'. split; [exact Hrun|]. rewrite Hused. vm_compute. reflexivity.
Defined.

(** A session in state Closing whose send buffer the socket takes whole
    is destroyed by [connection_flush], which returns [false]; so is a
    Closing session whose buffer was already empty. *)
Theorem connection_flush_destroys_drained_closing (idx n : nat)
  (s : Server) :
  table_ok s -> (idx < 16)%nat ->
  state (connection_at s idx) = CS_CLOSING ->
  0 <= sendbuf_used (connection_at s idx) <= Z.of_nat n ->
  exists s',
    connection_flush idx (SendTakes n) s = Ok false s' /\
    trace s' = closing_actions idx (connection_at s idx) ++ trace s /\
    num_connections s' = size_t (num_connections s - 1) /\
    process (connection_at s' idx) = None.
Proof.
  intros Ht Hi Hst Hused.
  assert (Ht' := Ht). unfold table_ok, MAX_CONNECTIONS in Ht'.
  unfold connection_flush, bind, connection.
  destruct (0 <? sendbuf_used (connection_at s idx)) eqn:Epos.
  - unfold update, modify, ret. table_simpl. simpl.
    rewrite Z.min_r by lia. rewrite Z.sub_diag, Hst. simpl.
    match goal with
    | |- context [connection_close idx ?S] =>
        assert (HtS : table_ok S)
          by (unfold table_ok, MAX_CONNECTIONS; table_len);
        destruct (connection_close_spec idx S HtS Hi)
          as (s' & Hrun & Hnum & _ & _ & _ & Htr & _ & Hp & _);
        rewrite Hrun
    end.
    exists s'. split; [reflexivity|].
    split; [|split; [exact Hnum|exact Hp]].
    rewrite Htr. simpl. f_equal. unfold closing_actions.
    table_simpl. reflexivity.
  - apply Z.ltb_ge in Epos. unfold ret.
    replace (sendbuf_used (connection_at s idx)) with 0 by lia.
    rewrite Hst. simpl.
    destruct (connection_close_spec idx s Ht Hi)
      as (s' & Hrun & Hnum & _ & _ & _ & Htr & _ & Hp & _).
    rewrite Hrun. exists s'. repeat split; assumption.
Qed.

(** The 13 bytes queued by [session_to_exit] are taken in one go: the
    Closing session is destroyed. *)
Lemma connection_flush_destroys_drained_closing_witness :
  exists s',
    connection_flush 0 (SendTakes 13) (server_after session_to_exit)
      = Ok false s' /\
    num_connections s' = 0.
Proof.
  destruct (connection_flush_destroys_drained_closing 0 13
              (server_after session_to_exit))
    as (s' & Hrun & _ & Hnum & _).
  - reflexivity.
  - lia.
  - vm_compute. reflexivity.
  - vm_compute. split; intros H; discriminate H.
  - exists s'. split; [exact Hrun|]. rewrite Hnum. vm_compute. reflexivity.
Defined.

(** A failing [send]: [WSAEWOULDBLOCK] leaves the server as it is and the
    call returns [true]; any other error destroys the session. *)
Theorem connection_flush_send_failure (idx : nat) (error : Z)
  (s : Server) :
  table_ok s -> (idx < 16)%nat ->
  0 < sendbuf_used (connection_at s idx) ->
  (error = WSAEWOULDBLOCK ->
   connection_flush idx (SendFails error) s = Ok true s) /\
  (error <> WSAEWOULDBLOCK ->
   exists s',
     connection_flush idx (SendFails error) s = Ok false s' /\
     trace s' = closing_actions idx (connection_at s idx) ++ trace s /\
     num_connections s' = size_t (num_connections s - 1)).
Proof.
  intros Ht Hi Hpos. unfold connection_flush, bind, connection.
  apply Z.ltb_lt in Hpos as Hpos'. rewrite Hpos'. split.
  - intros ->. simpl.
    replace (sendbuf_used (connection_at s idx) =? 0) with false
      by (symmetry; apply Z.eqb_neq; lia).
    reflexivity.
  - intros Hne. apply Z.eqb_neq in Hne. rewrite Hne. simpl.
    destruct (connection_close_spec idx s Ht Hi)
      as (s' & Hrun & Hnum & _ & _ & _ & Htr & _).
    rewrite Hrun. exists s'. repeat split; assumption.
Qed.

Lemma connection_flush_send_failure_witness :
  connection_flush 0 would_block (server_after session_to_exit)
  = Ok true (server_after session_to_exit).
Proof.
  apply (connection_flush_send_failure 0 WSAEWOULDBLOCK
           (server_after session_to_exit)).
  - reflexivity.
  - lia.
  - vm_compute. reflexivity.
  - reflexivity.
Defined.

(** ** connection_write *)

Lemma mem_read_all (l : list byte) : mem_read l 0 (length l) = l.
Proof.
  rewrite <- (app_nil_r l) at 1. apply mem_read_exact.
Qed.

Lemma mem_read_mem_write_same (buf : list byte) (off : nat)
  (data : list byte) :
  mem_read (mem_write buf off data) off (length data) = data.
Proof.
  transitivity (mem_read data 0 (length data)); [|apply mem_read_all].
  apply mem_read_cells. intros i Hi.
  rewrite cell_mem_write.
  replace (off + i <? off)%nat with false
    by (symmetry; apply Nat.ltb_ge; lia).
  replace (off + i <? off + length data)%nat with true
    by (symmetry; apply Nat.ltb_lt; lia).
  f_equal. lia.
Qed.

Lemma mem_read_mem_write_before (buf : list byte) (off : nat)
  (data : list byte) :
  mem_read (mem_write buf off data) 0 off = mem_read buf 0 off.
Proof.
  apply mem_read_cells. intros i Hi. simpl.
  rewrite cell_mem_write.
  replace (i <? off)%nat with true by (symmetry; apply Nat.ltb_lt; lia).
  reflexivity.
Qed.

Lemma connection_write_queues (idx : nat) (cmd : byte)
  (data : list byte) (s : Server) :
  table_ok s -> (idx < 16)%nat ->
  sendbuf_ok (connection_at s idx) ->
  Z.of_nat (length data) <= 65535 ->
  sizeof_MessageHeader + Z.of_nat (length data)
    <= sendbuf_spare (connection_at s idx) ->
  exists s',
    connection_write idx cmd data would_block s = Ok true s' /\
    sendbuf_used (connection_at s' idx)
    = sendbuf_used (connection_at s idx) + 3 + Z.of_nat (length data) /\
    mem_read (sendbuf (connection_at s' idx))
      (Z.to_nat (sendbuf_used (connection_at s idx)))
      (length (frame_bytes cmd data))
    = frame_bytes cmd data /\
    mem_read (sendbuf (connection_at s' idx)) 0
      (Z.to_nat (sendbuf_used (connection_at s idx)))
    = mem_read (sendbuf (connection_at s idx)) 0
        (Z.to_nat (sendbuf_used (connection_at s idx))) /\
    trace s' = Queued idx cmd data :: trace s /\
    num_connections s' = num_connections s /\
    (forall j, j <> idx -> connection_at s' j = connection_at s j) /\
    state (connection_at s' idx) = state (connection_at s idx) /\
    process (connection_at s' idx) = process (connection_at s idx) /\
    stdin_pipe (connection_at s' idx) = stdin_pipe (connection_at s idx) /\
    stdout_pipe (connection_at s' idx) = stdout_pipe (connection_at s idx) /\
    stderr_pipe (connection_at s' idx) = stderr_pipe (connection_at s idx) /\
    sock (connection_at s' idx) = sock (connection_at s idx) /\
    table_ok s'.
Proof.
  intros Ht Hi Hok Hlen Hroom. unfold table_ok, MAX_CONNECTIONS in Ht.
  unfold sendbuf_ok, SENDBUF_SIZE in Hok.
  unfold sendbuf_spare, SENDBUF_SIZE, sizeof_MessageHeader in Hroom.
  assert (Hint : int (Z.of_nat (length data)) = Z.of_nat (length data))
    by (apply int_small; lia).
  unfold connection_write. rewrite Hint.
  replace (65535 <? Z.of_nat (length data)) with false
    by (symmetry; apply Z.ltb_ge; lia).
  unfold bind at 1. unfold connection at 1.
  unfold SENDBUF_SIZE, sizeof_MessageHeader.
  rewrite (size_t_small (128 * 1024 - sendbuf_used (connection_at s idx)))
    by lia.
  rewrite (size_t_small (3 + Z.of_nat (length data))) by lia.
  replace (128 * 1024 - sendbuf_used (connection_at s idx)
           <? 3 + Z.of_nat (length data)) with false
    by (symmetry; apply Z.ltb_ge; lia).
  unfold update, emit, modify. unfold bind at 1. unfold bind at 1.
  unfold bind at 1.
  unfold connection_flush, bind, connection. table_simpl. simpl.
  replace (0 <? sendbuf_used (connection_at s idx) + 3
                + Z.of_nat (length data)) with true
    by (symmetry; apply Z.ltb_lt; lia).
  simpl. table_simpl. simpl.
  replace (sendbuf_used (connection_at s idx) + 3
           + Z.of_nat (length data) =? 0) with false
    by (symmetry; apply Z.eqb_neq; lia).
  simpl. unfold ret.
  eexists. split; [reflexivity|].
  split; [table_simpl; reflexivity|].
  split; [table_simpl; simpl; apply mem_read_mem_write_same|].
  split; [table_simpl; simpl; apply mem_read_mem_write_before|].
  split; [reflexivity|]. split; [reflexivity|].
  split; [intros j Hj; table_simpl; reflexivity|].
  table_simpl. repeat split.
  unfold table_ok, MAX_CONNECTIONS. table_len.
Qed.

(** With room for the frame and a socket that would block,
    [connection_write] returns [true]: the frame's bytes sit right behind
    what the send buffer held, which is untouched, the fill level grows
    by 3 + the payload length, and the frame is on the trace. *)
Theorem connection_write_appends (idx : nat) (cmd : byte)
  (data : list byte) (s : Server) :
  table_ok s -> (idx < 16)%nat ->
  sendbuf_ok (connection_at s idx) ->
  Z.of_nat (length data) <= 65535 ->
  sizeof_MessageHeader + Z.of_nat (length data)
    <= sendbuf_spare (connection_at s idx) ->
  exists s',
    connection_write idx cmd data would_block s = Ok true s' /\
    sendbuf_used (connection_at s' idx)
    = sendbuf_used (connection_at s idx) + 3 + Z.of_nat (length data) /\
    mem_read (sendbuf (connection_at s' idx))
      (Z.to_nat (sendbuf_used (connection_at s idx)))
      (length (frame_bytes cmd data))
    = frame_bytes cmd data /\
    mem_read (sendbuf (connection_at s' idx)) 0
      (Z.to_nat (sendbuf_used (connection_at s idx)))
    = mem_read (sendbuf (connection_at s idx)) 0
        (Z.to_nat (sendbuf_used (connection_at s idx))) /\
    trace s' = Queued idx cmd data :: trace s /\
    num_connections s' = num_connections s /\
    (forall j, j <> idx -> connection_at s' j = connection_at s j).
Proof.
  intros Ht Hi Hok Hlen Hroom.
  destruct (connection_write_queues idx cmd data s Ht Hi Hok Hlen Hroom)
    as (s' & H1 & H2 & H3 & H4 & H5 & H6 & H7 & _).
  exists s'. repeat split; assumption.
Qed.

(** Queuing the end-of-file frame of stdout on a fresh session. *)
Lemma connection_write_appends_witness :
  exists s',
    connection_write 0 "O" [] would_block running_server = Ok true s' /\
    sendbuf_used (connection_at s' 0) = 3 /\
    mem_read (sendbuf (connection_at s' 0)) 0 3 = ["O"; x00; x00]%byte.
Proof.
  destruct (connection_write_appends 0 "O" [] running_server)
    as (s' & Hrun & Hused & Hbytes & _).
  - reflexivity.
  - lia.
  - unfold sendbuf_ok. simpl. unfold SENDBUF_SIZE. lia.
  - simpl. lia.
  - vm_compute. intros H. discriminate H.
  - exists s'. split; [exact Hrun|]. split; [exact Hused|exact Hbytes].
Defined.

Lemma connection_write_refuses (idx : nat) (cmd : byte)
  (data : list byte) (env : SendResult) (s : Server) :
  table_ok s -> (idx < 16)%nat ->
  sendbuf_ok (connection_at s idx) ->
  Z.of_nat (length data) <= 65535 ->
  sendbuf_spare (connection_at s idx)
    < sizeof_MessageHeader + Z.of_nat (length data) ->
  exists s',
    connection_write idx cmd data env s = Ok false s' /\
    trace s' = closing_actions idx (connection_at s idx) ++ trace s /\
    num_connections s' = size_t (num_connections s - 1).
Proof.
  intros Ht Hi Hok Hlen Hroom.
  unfold sendbuf_ok, SENDBUF_SIZE in Hok.
  unfold sendbuf_spare, SENDBUF_SIZE, sizeof_MessageHeader in Hroom.
  assert (Hint : int (Z.of_nat (length data)) = Z.of_nat (length data))
    by (apply int_small; lia).
  unfold connection_write. rewrite Hint.
  replace (65535 <? Z.of_nat (length data)) with false
    by (symmetry; apply Z.ltb_ge; lia).
  unfold bind at 1. unfold connection at 1.
  unfold SENDBUF_SIZE, sizeof_MessageHeader.
  rewrite (size_t_small (128 * 1024 - sendbuf_used (connection_at s idx)))
    by lia.
  rewrite (size_t_small (3 + Z.of_nat (length data))) by lia.
  replace (128 * 1024 - sendbuf_used (connection_at s idx)
           <? 3 + Z.of_nat (length data)) with true
    by (symmetry; apply Z.ltb_lt; lia).
  unfold bind.
  destruct (connection_close_spec idx s Ht Hi)
    as (s' & Hrun & Hnum & _ & _ & _ & Htr & _).
  rewrite Hrun. exists s'. repeat split; assumption.
Qed.

(** Without room for the frame [connection_write] queues nothing: it
    destroys the session and returns [false]. *)
Theorem connection_write_without_room (idx : nat) (cmd : byte)
  (data : list byte) (env : SendResult) (s : Server) :
  table_ok s -> (idx < 16)%nat ->
  sendbuf_ok (connection_at s idx) ->
  Z.of_nat (length data) <= 65535 ->
  sendbuf_spare (connection_at s idx)
    < sizeof_MessageHeader + Z.of_nat (length data) ->
  exists s',
    connection_write idx cmd data env s = Ok false s' /\
    trace s' = closing_actions idx (connection_at s idx) ++ trace s /\
    num_connections s' = size_t (num_connections s - 1).
Proof. exact (connection_write_refuses idx cmd data env s). Qed.

Lemma connection_write_without_room_witness :
  exists s',
    connection_write 0 "O" [] would_block congested_server = Ok false s' /\
    num_connections s' = 0.
Proof.
  destruct (connection_write_without_room 0 "O" [] would_block
              congested_server)
    as (s' & Hrun & _ & Hnum).
  - reflexivity.
  - lia.
  - unfold sendbuf_ok. simpl. unfold SENDBUF_SIZE. lia.
  - simpl. lia.
  - vm_compute. reflexivity.
  - exists s'. split; [exact Hrun|]. rewrite Hnum. vm_compute. reflexivity.
Defined.

(** ** The exit code *)

Lemma int_of_size_t (x : Z) : int (size_t x) = int x.
Proof.
  unfold int, size_t. rewrite Zplus_mod_idemp_l. reflexivity.
Qed.

(** The four bytes of an [int] read back as the same [int]. *)
Lemma int_of_bytes_int_bytes (x : Z) : int_of_bytes (int_bytes x) = int x.
Proof.
  unfold int_of_bytes, int_bytes. unfold cell. simpl nth.
  rewrite !Z_of_byte_of_Z. rewrite <- (int_of_size_t x). f_equal.
  assert (Hu : 0 <= size_t x < 2 ^ 32)
    by (unfold size_t; apply Z.mod_pos_bound; lia).
  set (u := size_t x) in *.
  change (2 ^ 16) with (2 ^ 8 * 2 ^ 8).
  change (2 ^ 24) with (2 ^ 8 * 2 ^ 8 * 2 ^ 8).
  rewrite <- !Z.div_div by lia.
  change (2 ^ 8) with 256.
  pose proof (Z.div_mod u 256 ltac:(lia)) as H0.
  pose proof (Z.div_mod (u / 256) 256 ltac:(lia)) as H1.
  pose proof (Z.div_mod (u / 256 / 256) 256 ltac:(lia)) as H2.
  pose proof (Z.div_mod (u / 256 / 256 / 256) 256 ltac:(lia)) as H3.
  assert (H4 : u / 256 / 256 / 256 / 256 = 0).
  { rewrite !Z.div_div by lia. apply Z.div_small. lia. }
  lia.
Qed.

(** With room for the exit frame and a socket that would block,
    [process_exit] closes the process handle, clears it from the
    session, puts the session in state Closing and queues one "X" frame
    whose 4-byte payload reads back as the exit code converted to
    [int32_t]. *)
Theorem process_exit_queues_exit_code (idx : nat) (code : Z) (p : HANDLE)
  (s : Server) :
  table_ok s -> (idx < 16)%nat ->
  process (connection_at s idx) = Some p ->
  sendbuf_ok (connection_at s idx) ->
  sizeof_MessageHeader + sizeof_int32_t
    <= sendbuf_spare (connection_at s idx) ->
  exists s',
    process_exit idx code would_block s = Ok tt s' /\
    trace s'
    = Queued idx "X" (int_bytes (int code)) :: CloseHandle p :: trace s /\
    length (int_bytes (int code)) = 4%nat /\
    int_of_bytes (int_bytes (int code)) = int code /\
    state (connection_at s' idx) = CS_CLOSING /\
    process (connection_at s' idx) = None /\
    sendbuf_used (connection_at s' idx)
    = sendbuf_used (connection_at s idx) + 7.
Proof.
  intros Ht Hi Hp Hok Hroom.
  assert (Ht' := Ht). unfold table_ok, MAX_CONNECTIONS in Ht'.
  unfold process_exit. unfold bind at 1. unfold connection at 1.
  rewrite Hp. unfold emit, update, modify.
  unfold bind at 1. unfold bind at 1. unfold bind at 1.
  match goal with
  | |- context [bind (connection_write idx "X" ?d would_block) _ ?S] =>
      destruct (connection_write_queues idx "X" d S)
        as (s' & Hrun & Hused & _ & _ & Htr & _ & _ & Hst & Hpr & _)
  end.
  - unfold table_ok, MAX_CONNECTIONS. table_len.
  - exact Hi.
  - unfold sendbuf_ok in *. table_simpl. exact Hok.
  - simpl. lia.
  - unfold sendbuf_spare in *. table_simpl. exact Hroom.
  - unfold bind. rewrite Hrun. exists s'. split; [reflexivity|].
    split; [exact Htr|]. split; [reflexivity|].
    split.
    { rewrite int_of_bytes_int_bytes. unfold int.
      rewrite Z.sub_add. rewrite Z.mod_mod by lia. reflexivity. }
    revert Hused Hst Hpr. table_simpl. simpl. intros Hused Hst Hpr.
    split; [exact Hst|]. split; [exact Hpr|]. rewrite Hused. lia.
Qed.

(** The child of the session of [running_server] exits with code -1
    (0xFFFFFFFF as a DWORD). *)
Lemma process_exit_queues_exit_code_witness :
  exists s',
    process_exit 0 4294967295 would_block running_server = Ok tt s' /\
    int_of_bytes (int_bytes (int 4294967295)) = -1 /\
    state (connection_at s' 0) = CS_CLOSING.
Proof.
  destruct (process_exit_queues_exit_code 0 4294967295 7 running_server)
    as (s' & Hrun & _ & _ & Hcode & Hst & _).
  - reflexivity.
  - lia.
  - reflexivity.
  - unfold sendbuf_ok. simpl. unfold SENDBUF_SIZE. lia.
  - vm_compute. intros H. discriminate H.
  - exists s'. split; [exact Hrun|]. split; [|exact Hst].
    rewrite Hcode. reflexivity.
Defined.

(** ** pipe_read *)













(** ** Buffers within bounds, loops that end *)

Lemma ends_bind {A B : Type} (m : M A) (k : A -> M B) (s : Server)
  (Q1 : A -> Server -> Prop) (Q : B -> Server -> Prop) :
  ends (m s) Q1 ->
  (forall a s1, Q1 a s1 -> ends (k a s1) Q) ->
  ends (bind m k s) Q.
Proof.
  intros H1 H2. unfold bind. destruct (m s); [apply H2; exact H1|exact H1].
Qed.

Lemma ends_weaken {A : Type} (o : Outcome A)
  (Q1 Q2 : A -> Server -> Prop) :
  ends o Q1 -> (forall a s, Q1 a s -> Q2 a s) -> ends o Q2.
Proof. destruct o; simpl; auto. Qed.

Lemma ends_modify_bind {B : Type} (f : Server -> Server)
  (k : unit -> M B) (s : Server) (Q : B -> Server -> Prop) :
  ends (k tt (f s)) Q -> ends (bind (modify f) k s) Q.
Proof. intros H. exact H. Qed.

Lemma ends_connection_bind {B : Type} (idx : nat)
  (k : Connection -> M B) (s : Server) (Q : B -> Server -> Prop) :
  ends (k (connection_at s idx) s) Q -> ends (bind (connection idx) k s) Q.
Proof. intros H. exact H. Qed.

Lemma ends_fresh_bind {B : Type} (k : Z -> M B) (s : Server)
  (Q : B -> Server -> Prop) :
  ends (k (next_handle s) (with_next_handle (next_handle s + 1) s)) Q ->
  ends (bind fresh_handle k s) Q.
Proof. intros H. exact H. Qed.

Lemma ends_get_bind {B : Type} (k : Server -> M B) (s : Server)
  (Q : B -> Server -> Prop) :
  ends (k s s) Q -> ends (bind get k s) Q.
Proof. intros H. exact H. Qed.

Ltac ends_step :=
  first [ apply ends_modify_bind
        | apply ends_connection_bind
        | apply ends_fresh_bind
        | apply ends_get_bind ].

Lemma bounded_record (a : Action) (s : Server) :
  Bounded s -> Bounded (record a s).
Proof. intros [Ht Hc Hr Hs]. constructor; assumption. Qed.

Lemma bounded_with_next_handle (n : Z) (s : Server) :
  Bounded s -> Bounded (with_next_handle n s).
Proof. intros [Ht Hc Hr Hs]. constructor; assumption. Qed.

Lemma bounded_with_next_connection_id (n : Z) (s : Server) :
  Bounded s -> Bounded (with_next_connection_id n s).
Proof. intros [Ht Hc Hr Hs]. constructor; assumption. Qed.

Lemma bounded_with_num_connections (n : Z) (s : Server) :
  0 <= n <= MAX_CONNECTIONS -> Bounded s ->
  Bounded (with_num_connections n s).
Proof. intros Hn [Ht Hc Hr Hs]. constructor; assumption. Qed.

Lemma bounded_assign (idx : nat) (f : Connection -> Connection)
  (s : Server) :
  recvbuf_ok (f (connection_at s idx)) ->
  sendbuf_ok (f (connection_at s idx)) ->
  Bounded s -> Bounded (assign idx f s).
Proof.
  intros Hfr Hfs [Ht Hc Hr Hs]. constructor.
  - unfold table_ok in *. rewrite length_assign. exact Ht.
  - exact Hc.
  - intros i.
    destruct (connection_at_assign_cases idx f s i) as [E|[_ E]];
      rewrite E; [apply Hr|exact Hfr].
  - intros i.
    destruct (connection_at_assign_cases idx f s i) as [E|[_ E]];
      rewrite E; [apply Hs|exact Hfs].
Qed.

Lemma bounded_assign_keeps (idx : nat) (f : Connection -> Connection)
  (s : Server) :
  keeps_levels f -> Bounded s -> Bounded (assign idx f s).
Proof.
  intros Hf HB. destruct (Hf (connection_at s idx)) as [Er Es].
  apply bounded_assign; [| |exact HB].
  - unfold recvbuf_ok. rewrite Er. apply (bounded_recv s HB).
  - unfold sendbuf_ok. rewrite Es. apply (bounded_send s HB).
Qed.

Lemma recvbuf_used_assign_keeps (idx : nat)
  (f : Connection -> Connection) (s : Server) (i : nat) :
  keeps_levels f ->
  recvbuf_used (connection_at (assign idx f s) i)
  = recvbuf_used (connection_at s i).
Proof.
  intros Hf.
  destruct (connection_at_assign_cases idx f s i) as [E|[-> E]];
    rewrite E; [reflexivity|apply Hf].
Qed.

Lemma keeps_levels_set_id v : keeps_levels (set_id v).
Proof. intros c. split; reflexivity. Qed.
Lemma keeps_levels_set_state v : keeps_levels (set_state v).
Proof. intros c. split; reflexivity. Qed.
Lemma keeps_levels_set_sock v : keeps_levels (set_sock v).
Proof. intros c. split; reflexivity. Qed.
Lemma keeps_levels_set_recvbuf v : keeps_levels (set_recvbuf v).
Proof. intros c. split; reflexivity. Qed.
Lemma keeps_levels_set_sendbuf v : keeps_levels (set_sendbuf v).
Proof. intros c. split; reflexivity. Qed.
Lemma keeps_levels_set_application_path v :
  keeps_levels (set_application_path v).
Proof. intros c. split; reflexivity. Qed.
Lemma keeps_levels_set_command_line v : keeps_levels (set_command_line v).
Proof. intros c. split; reflexivity. Qed.
Lemma keeps_levels_set_working_directory v :
  keeps_levels (set_working_directory v).
Proof. intros c. split; reflexivity. Qed.
Lemma keeps_levels_set_process v : keeps_levels (set_process v).
Proof. intros c. split; reflexivity. Qed.
Lemma keeps_levels_set_stdin_pipe v : keeps_levels (set_stdin_pipe v).
Proof. intros c. split; reflexivity. Qed.
Lemma keeps_levels_set_stdout_pipe v : keeps_levels (set_stdout_pipe v).
Proof. intros c. split; reflexivity. Qed.
Lemma keeps_levels_set_stderr_pipe v : keeps_levels (set_stderr_pipe v).
Proof. intros c. split; reflexivity. Qed.
Lemma keeps_levels_set_output_pipe which v :
  keeps_levels (set_output_pipe which v).
Proof. destruct which; intros c; split; reflexivity. Qed.
Lemma keeps_levels_copy_struct_bytes n src :
  keeps_levels (copy_struct_bytes n src).
Proof.
  intros c.
  destruct (copy_struct_bytes_fields n src c)
    as (_ & _ & _ & _ & _ & _ & _ & _ & H1 & H2).
  split; assumption.
Qed.

Create HintDb levels.
#[local] Hint Resolve keeps_levels_set_id keeps_levels_set_state
  keeps_levels_set_sock keeps_levels_set_recvbuf keeps_levels_set_sendbuf
  keeps_levels_set_application_path keeps_levels_set_command_line
  keeps_levels_set_working_directory keeps_levels_set_process
  keeps_levels_set_stdin_pipe keeps_levels_set_stdout_pipe
  keeps_levels_set_stderr_pipe keeps_levels_set_output_pipe
  keeps_levels_copy_struct_bytes : levels.

(** Steps through a chain of updates that leave the fill levels alone. *)
Ltac bounded_steps :=
  repeat first
    [ assumption
    | apply bounded_record
    | apply bounded_assign_keeps; [solve [auto with levels]|]
    | apply bounded_with_next_connection_id
    | apply bounded_with_next_handle ].

Ltac levels_simpl :=
  repeat first
    [ rewrite connection_at_record
    | rewrite connection_at_with_num_connections
    | rewrite connection_at_with_next_connection_id
    | rewrite connection_at_with_next_handle
    | rewrite recvbuf_used_assign_keeps by (solve [auto with levels]) ].

Lemma connection_close_ends (idx : nat) (s : Server) :
  Bounded s -> 1 <= num_connections s ->
  ends (connection_close idx s)
    (fun _ s' => Bounded s' /\ num_connections s' = num_connections s - 1).
Proof.
  intros HB H1. pose proof (bounded_count s HB) as Hc.
  assert (En : size_t (num_connections s - 1) = num_connections s - 1)
    by (apply size_t_small; unfold MAX_CONNECTIONS in Hc; lia).
  unfold connection_close, bind, connection, get, update, emit, modify.
  destruct (process (connection_at s idx)) as [p|]; simpl;
    (split; [|exact En]);
    (apply bounded_with_num_connections; [simpl; lia|bounded_steps]).
Qed.

Lemma close_ends_false (idx : nat) (s0 s : Server) :
  Bounded s -> 1 <= num_connections s ->
  num_connections s = num_connections s0 ->
  ends ((do connection_close idx then ret false) s) (ends_post s0).
Proof.
  intros HB H1 En. eapply ends_bind.
  - apply connection_close_ends; assumption.
  - intros [] s' [HB' En']. split; [exact HB'|]. simpl in *. lia.
Qed.

Lemma close_ends_return_false (idx : nat) (s0 s : Server) :
  Bounded s -> 1 <= num_connections s ->
  num_connections s = num_connections s0 ->
  ends ((do connection_close idx then ret (Return false)) s)
    (ends_case idx s0).
Proof.
  intros HB H1 En. eapply ends_bind.
  - apply connection_close_ends; assumption.
  - intros [] s' [HB' En']. split; [exact HB'|]. simpl in *. lia.
Qed.

Lemma bounded_assign_sendbuf_used (idx : nat) (v : Z) (s : Server) :
  0 <= v <= SENDBUF_SIZE -> Bounded s ->
  Bounded (assign idx (set_sendbuf_used v) s).
Proof.
  intros Hv HB. apply bounded_assign; [| |exact HB].
  - apply (bounded_recv s HB).
  - exact Hv.
Qed.

Lemma bounded_assign_recvbuf_used (idx : nat) (v : Z) (s : Server) :
  0 <= v <= RECVBUF_SIZE -> Bounded s ->
  Bounded (assign idx (set_recvbuf_used v) s).
Proof.
  intros Hv HB. apply bounded_assign; [| |exact HB].
  - exact Hv.
  - apply (bounded_send s HB).
Qed.

Lemma connection_flush_ends (idx : nat) (env : SendResult) (s : Server) :
  Bounded s -> Z.of_nat idx < num_connections s ->
  ends (connection_flush idx env s) (ends_post s).
Proof.
  intros HB Hl. unfold connection_flush. ends_step.
  pose proof (bounded_send s HB idx) as Hs. unfold sendbuf_ok in Hs.
  eapply ends_bind with (Q1 := ends_post s).
  - destruct (0 <? sendbuf_used (connection_at s idx)).
    + destruct env as [n|error].
      * unfold update. ends_step. ends_step. simpl. split; [|reflexivity].
        apply bounded_assign_sendbuf_used; [lia|bounded_steps].
      * destruct (negb (error =? WSAEWOULDBLOCK)).
        -- apply close_ends_false; [exact HB|lia|reflexivity].
        -- simpl. split; [exact HB|reflexivity].
    + simpl. split; [exact HB|reflexivity].
  - intros ok s1 [HB1 En]. destruct ok.
    + ends_step.
      destruct ((sendbuf_used (connection_at s1 idx) =? 0)
                && (state (connection_at s1 idx) =? CS_CLOSING)).
      * apply close_ends_false; [exact HB1|lia|exact En].
      * simpl. split; [exact HB1|exact En].
    + simpl. split; [exact HB1|exact En].
Qed.

Lemma int_range (x : Z) : - 2 ^ 31 <= int x < 2 ^ 31.
Proof. unfold int. pose proof (Z.mod_pos_bound (x + 2 ^ 31) (2 ^ 32)). lia. Qed.

Lemma size_t_negative (x : Z) :
  - 2 ^ 32 <= x < 0 -> size_t x = x + 2 ^ 32.
Proof.
  intros H. unfold size_t. symmetry.
  apply (Z.mod_unique x (2 ^ 32) (-1) (x + 2 ^ 32)); lia.
Qed.

Lemma connection_write_ends (idx : nat) (cmd : byte) (data : list byte)
  (env : SendResult) (s : Server) :
  Bounded s -> Z.of_nat idx < num_connections s ->
  ends (connection_write idx cmd data env s) (ends_post s).
Proof.
  intros HB Hl. unfold connection_write.
  pose proof (int_range (Z.of_nat (length data))) as Hr.
  set (payload_length := int (Z.of_nat (length data))) in *.
  destruct (65535 <? payload_length) eqn:Ea; [discriminate|].
  apply Z.ltb_ge in Ea. ends_step.
  pose proof (bounded_send s HB idx) as Hs.
  unfold sendbuf_ok, SENDBUF_SIZE in Hs.
  destruct (size_t (SENDBUF_SIZE - sendbuf_used (connection_at s idx))
            <? size_t (sizeof_MessageHeader + payload_length)) eqn:Eroom.
  - apply close_ends_false; [exact HB|lia|reflexivity].
  - apply Z.ltb_ge in Eroom. unfold update, emit.
    ends_step. ends_step. ends_step.
    eapply ends_weaken.
    + apply connection_flush_ends; [|exact Hl].
      apply bounded_record. apply bounded_assign_sendbuf_used;
        [|bounded_steps].
      unfold SENDBUF_SIZE, sizeof_MessageHeader in *.
      rewrite (size_t_small (128 * 1024 - _)) in Eroom by lia.
      destruct (Z_lt_le_dec (3 + payload_length) 0) as [Hneg|Hpos].
      * rewrite (size_t_negative (3 + payload_length)) in Eroom by lia. lia.
      * rewrite (size_t_small (3 + payload_length)) in Eroom by lia. lia.
    + intros r s' H. exact H.
Qed.

Lemma handle_eof_ends (idx : nat) (which : OutputPipe) (cmd : byte)
  (h : PipeReadHandle) (env : SendResult) (s : Server) :
  Bounded s -> Z.of_nat idx < num_connections s ->
  ends (handle_eof idx which cmd h env s) (fun _ s' => Bounded s').
Proof.
  intros HB Hl. unfold handle_eof, emit, update. ends_step. ends_step.
  eapply ends_bind.
  - apply connection_write_ends; [bounded_steps|exact Hl].
  - intros r s' [HB' _]. exact HB'.
Qed.

Lemma rearm_ends (idx : nat) (which : OutputPipe) (cmd : byte)
  (h : PipeReadHandle) (error : Z) (env : SendResult) (s : Server) :
  Bounded s -> Z.of_nat idx < num_connections s ->
  ends (rearm idx which cmd h error env s) (fun _ s' => Bounded s').
Proof.
  intros HB Hl. unfold rearm, emit. ends_step.
  destruct (error =? ERROR_BROKEN_PIPE).
  - apply handle_eof_ends; [bounded_steps|exact Hl].
  - destruct (negb (error =? ERROR_IO_PENDING)); [discriminate|].
    simpl. bounded_steps.
Qed.

Lemma pipe_read_ends (idx : nat) (which : OutputPipe) (cmd : byte)
  (env : PipeEnv) (s : Server) :
  Bounded s -> Z.of_nat idx < num_connections s ->
  ends (pipe_read idx which cmd env s) (fun _ s' => Bounded s').
Proof.
  intros HB Hl. unfold pipe_read. ends_step.
  destruct (output_pipe which (connection_at s idx)) as [h|];
    [|discriminate].
  destruct (read_error env =? ERROR_SUCCESS).
  - destruct (Z.of_nat (length (read_data env)) =? 0).
    + apply rearm_ends; assumption.
    + eapply ends_bind.
      * apply connection_write_ends; assumption.
      * intros ok s1 [HB1 En]. destruct ok; [|exact HB1].
        apply rearm_ends; [exact HB1|lia].
  - destruct (read_error env =? ERROR_BROKEN_PIPE).
    + apply handle_eof_ends; assumption.
    + eapply ends_weaken.
      * apply connection_close_ends; [exact HB|lia].
      * intros _ s' [HB' _]. exact HB'.
Qed.

Lemma process_exit_ends (idx : nat) (code : Z) (env : SendResult)
  (s : Server) :
  Bounded s -> Z.of_nat idx < num_connections s ->
  ends (process_exit idx code env s) (fun _ s' => Bounded s').
Proof.
  intros HB Hl. unfold process_exit. ends_step.
  eapply ends_bind with (Q1 := fun _ s1 =>
    Bounded s1 /\ num_connections s1 = num_connections s).
  - destruct (process (connection_at s idx)) as [p|]; simpl;
      (split; [bounded_steps|reflexivity]).
  - intros [] s1 [HB1 En]. unfold update. ends_step. ends_step.
    eapply ends_bind.
    + apply connection_write_ends; [bounded_steps|simpl; lia].
    + intros r s' [HB' _]. exact HB'.
Qed.

Lemma stored_ends (idx : nat)
  (dst : option (list byte) -> Connection -> Connection) (f : Frame)
  (env : FrameEnv) (s : Server) :
  (forall v, keeps_levels (dst v)) ->
  Bounded s -> Z.of_nat idx < num_connections s ->
  ends (stored idx dst f env s) (ends_case idx s).
Proof.
  intros Hd HB Hl. unfold stored, store_string, update.
  destruct (malloc_ok env).
  - unfold bind, modify, ret. simpl. split.
    + apply bounded_assign_keeps; [apply Hd|exact HB].
    + split; [reflexivity|]. apply recvbuf_used_assign_keeps. apply Hd.
  - unfold bind at 1. unfold bind at 1. unfold modify, ret.
    apply close_ends_return_false; [|simpl; lia|reflexivity].
    apply bounded_assign_keeps; [apply Hd|exact HB].
Qed.

Lemma write_stdin_ends (idx : nat) (f : Frame) (env : FrameEnv)
  (s : Server) :
  Bounded s -> Z.of_nat idx < num_connections s ->
  ends (write_stdin idx f env s) (ends_case idx s).
Proof.
  intros HB Hl. unfold write_stdin, emit, update. ends_step.
  destruct (payload_length f =? 0).
  - ends_step. ends_step. simpl. split; [bounded_steps|].
    split; [reflexivity|levels_simpl; reflexivity].
  - destruct (stdin_pipe (connection_at s idx)) as [h|].
    + destruct (write_pending env).
      * simpl. split; [exact HB|split; reflexivity].
      * ends_step. destruct (negb (write_initiate env =? ERROR_IO_PENDING)).
        -- apply close_ends_return_false;
             [bounded_steps|simpl; lia|reflexivity].
        -- simpl. split; [bounded_steps|split; reflexivity].
    + simpl. split; [exact HB|split; reflexivity].
Qed.

Lemma spawn_child_ends (idx : nat) (env : FrameEnv)
  (stdin_read : PipeReadHandle) (stdin_write : PipeWriteHandle)
  (stdout_read : PipeReadHandle) (stdout_write : PipeWriteHandle)
  (stderr_read : PipeReadHandle) (stderr_write : PipeWriteHandle)
  (s0 s : Server) :
  Bounded s -> Z.of_nat idx < num_connections s ->
  num_connections s = num_connections s0 ->
  recvbuf_used (connection_at s idx) = recvbuf_used (connection_at s0 idx) ->
  ends (spawn_child idx env stdin_read stdin_write stdout_read
          stdout_write stderr_read stderr_write s) (ends_case idx s0).
Proof.
  intros HB Hl En Er. unfold spawn_child, emit, update. ends_step.
  destruct (application_path (connection_at s idx)) as [path|];
    [|discriminate].
  destruct (process_created env).
  - repeat ends_step.
    destruct (negb (stdout_initiate env =? ERROR_IO_PENDING));
      [discriminate|].
    ends_step.
    destruct (negb (stderr_initiate env =? ERROR_IO_PENDING));
      [discriminate|].
    simpl. split; [bounded_steps|].
    split; [exact En|levels_simpl; exact Er].
  - apply close_ends_return_false; [exact HB|lia|exact En].
Qed.

Lemma pipe9x_create_ends (pipe_error : Z) (idx : nat) (s : Server) :
  Bounded s ->
  ends (pipe9x_create pipe_error s)
    (fun _ s' => Bounded s' /\ num_connections s' = num_connections s /\
                 connection_at s' idx = connection_at s idx).
Proof.
  intros HB. unfold pipe9x_create.
  destruct (pipe_error =? ERROR_SUCCESS).
  - unfold emit. repeat ends_step. simpl.
    split; [bounded_steps|split; reflexivity].
  - simpl. split; [exact HB|split; reflexivity].
Qed.

Lemma execute_ends (idx : nat) (env : FrameEnv) (s : Server) :
  Bounded s -> Z.of_nat idx < num_connections s ->
  ends (execute idx env s) (ends_case idx s).
Proof.
  intros HB Hl. unfold execute.
  eapply ends_bind; [apply (pipe9x_create_ends _ idx); exact HB|].
  intros [[stdin_read stdin_write]|] s1 (HB1 & En1 & Ec1).
  2: { apply close_ends_return_false; [exact HB1|lia|exact En1]. }
  eapply ends_bind; [apply (pipe9x_create_ends _ idx); exact HB1|].
  intros [[stdout_read stdout_write]|] s2 (HB2 & En2 & Ec2).
  2: { unfold emit. ends_step. ends_step.
       apply close_ends_return_false; [bounded_steps|simpl; lia|simpl; lia]. }
  eapply ends_bind; [apply (pipe9x_create_ends _ idx); exact HB2|].
  intros [[stderr_read stderr_write]|] s3 (HB3 & En3 & Ec3).
  2: { unfold emit. repeat ends_step.
       apply close_ends_return_false; [bounded_steps|simpl; lia|simpl; lia]. }
  apply spawn_child_ends; [exact HB3|lia|lia|congruence].
Qed.

Lemma handle_command_ends (idx : nat) (f : Frame) (env : FrameEnv)
  (s : Server) :
  Bounded s -> Z.of_nat idx < num_connections s ->
  ends (handle_command idx f env s) (ends_case idx s).
Proof.
  intros HB Hl. unfold handle_command.
  destruct (Byte.eqb (command f) "A").
  { apply stored_ends; auto with levels. }
  destruct (Byte.eqb (command f) "C").
  { apply stored_ends; auto with levels. }
  destruct (Byte.eqb (command f) "W").
  { apply stored_ends; auto with levels. }
  destruct (Byte.eqb (command f) "E").
  { apply execute_ends; assumption. }
  destruct (Byte.eqb (command f) "I").
  { apply write_stdin_ends; assumption. }
  apply close_ends_return_false; [exact HB|lia|reflexivity].
Qed.

(** A frame the parser yields takes at least the three bytes of its
    header and no more than the buffer holds. *)
Lemma parse_frame_total_length (c : Connection) (f : Frame) :
  recvbuf_ok c -> parse_frame c = Some f ->
  3 <= total_length f <= recvbuf_used c.
Proof.
  intros Hok. rewrite parse_frame_unfold by exact Hok.
  pose proof (head_payload_length_range c) as Hp.
  destruct (3 <=? recvbuf_used c) eqn:E3; simpl; [|discriminate].
  destruct (3 + head_payload_length c <=? recvbuf_used c) eqn:Et;
    [|discriminate].
  intros E. injection E as <-. simpl. apply Z.leb_le in Et. lia.
Qed.

Lemma bounded_assign_drain_frame (idx : nat) (total : Z) (s : Server) :
  0 <= total <= recvbuf_used (connection_at s idx) ->
  Bounded s -> Bounded (assign idx (drain_frame total) s).
Proof.
  intros Ht HB. pose proof (bounded_recv s HB idx) as Hr.
  unfold recvbuf_ok in Hr.
  apply bounded_assign; [| |exact HB].
  - unfold recvbuf_ok, drain_frame. simpl. lia.
  - apply (bounded_send s HB).
Qed.

Lemma read_frames_ends (fuel : nat) :
  forall (idx : nat) (env : nat -> FrameEnv) (n : nat) (s : Server),
    Bounded s -> Z.of_nat idx < num_connections s ->
    recvbuf_used (connection_at s idx) < Z.of_nat fuel ->
    ends (read_frames fuel idx env n s) (ends_post s).
Proof.
  induction fuel as [|fuel IH]; intros idx env n s HB Hl Hfuel.
  - pose proof (bounded_recv s HB idx) as Hr. unfold recvbuf_ok in Hr.
    simpl in Hfuel. lia.
  - simpl. ends_step.
    pose proof (bounded_recv s HB idx) as Hr.
    destruct (parse_frame (connection_at s idx)) as [f|] eqn:Ef.
    + pose proof (parse_frame_total_length _ f Hr Ef) as Hlen.
      eapply ends_bind; [apply handle_command_ends; assumption|].
      intros exit s1 [HB1 Hx]. destruct exit as [|[|]].
      * destruct Hx as [En Er]. unfold update. ends_step.
        eapply ends_weaken.
        -- apply IH.
           ++ apply bounded_assign_drain_frame; [lia|exact HB1].
           ++ simpl. lia.
           ++ assert (Hin : (idx < length (connections s1))%nat).
              { pose proof (bounded_table s1 HB1) as Ht.
                pose proof (bounded_count s1 HB1) as Hc.
                unfold table_ok, MAX_CONNECTIONS in *. lia. }
              rewrite connection_at_assign_eq by exact Hin.
              unfold drain_frame. simpl. lia.
        -- intros r s' [HB' En']. split; [exact HB'|].
           simpl in En'. rewrite En'. rewrite En. reflexivity.
      * simpl. split; [exact HB1|apply Hx].
      * simpl. split; [exact HB1|exact Hx].
    + simpl. split; [exact HB|reflexivity].
Qed.

Lemma connection_read_ends (idx : nat) (rcv : RecvResult)
  (env : nat -> FrameEnv) (s : Server) :
  Bounded s -> Z.of_nat idx < num_connections s ->
  ends (connection_read idx rcv env s) (ends_post s).
Proof.
  intros HB Hl. unfold connection_read. ends_step.
  pose proof (bounded_recv s HB idx) as Hr.
  unfold recvbuf_ok in Hr.
  destruct (recvbuf_used (connection_at s idx) =? RECVBUF_SIZE).
  { simpl. split; [exact HB|reflexivity]. }
  destruct rcv as [available|error].
  - set (data := take (Z.to_nat (RECVBUF_SIZE
                                 - recvbuf_used (connection_at s idx)))
                   available).
    assert (Hd : Z.of_nat (length data)
                 <= RECVBUF_SIZE - recvbuf_used (connection_at s idx)).
    { unfold data. rewrite length_take. lia. }
    destruct (Z.of_nat (length data) <=? 0) eqn:E0.
    + apply close_ends_false; [exact HB|lia|reflexivity].
    + apply Z.leb_gt in E0. unfold update. ends_step. ends_step.
      assert (Hin : (idx < length (connections s))%nat).
      { pose proof (bounded_table s HB) as Ht.
        pose proof (bounded_count s HB) as Hc.
        unfold table_ok, MAX_CONNECTIONS in *. lia. }
      eapply ends_weaken.
      * apply read_frames_ends.
        -- apply bounded_assign_recvbuf_used; [lia|bounded_steps].
        -- simpl. exact Hl.
        -- rewrite connection_at_assign_eq by table_len. simpl. lia.
      * intros r s' [HB' En']. split; [exact HB'|exact En'].
  - destruct (error =? WSAEWOULDBLOCK).
    + simpl. split; [exact HB|reflexivity].
    + apply close_ends_false; [exact HB|lia|reflexivity].
Qed.

Lemma service_sockets_ends (fuel : nat) :
  forall (i k : nat) (env : nat -> SocketEnv) (s : Server),
    Bounded s -> Z.of_nat i <= num_connections s ->
    num_connections s - Z.of_nat i < Z.of_nat fuel ->
    ends (service_sockets fuel i k env s) (fun _ s' => Bounded s').
Proof.
  induction fuel as [|fuel IH]; intros i k env s HB Hi Hfuel.
  - simpl in Hfuel. lia.
  - simpl. ends_step. pose proof (bounded_count s HB) as Hc.
    unfold MAX_CONNECTIONS in Hc.
    rewrite size_t_small by lia.
    destruct (Z.of_nat i <? num_connections s) eqn:El.
    + apply Z.ltb_lt in El.
      eapply ends_bind; [apply connection_flush_ends; assumption|].
      intros flushed s1 [HB1 En1]. destruct flushed.
      * eapply ends_bind; [apply connection_read_ends; [exact HB1|lia]|].
        intros read s2 [HB2 En2]. destruct read.
        -- apply IH; [exact HB2|lia|lia].
        -- apply IH; [exact HB2|lia|lia].
      * apply IH; [exact HB1|lia|lia].
    + simpl. exact HB.
Qed.

Lemma dispatch_handle_ends (n : nat) :
  forall (i : nat) (woke_handle : WaitHandle) (env : LoopEnv) (s : Server),
    Bounded s -> Z.of_nat (i + n) <= num_connections s ->
    ends (dispatch_handle n i woke_handle env s) (fun _ s' => Bounded s').
Proof.
  induction n as [|n IH]; intros i woke_handle env s HB Hn.
  - simpl. exact HB.
  - simpl. ends_step.
    destruct (match stdout_pipe (connection_at s i) with
              | Some h => WaitHandle_eqb woke_handle (pipe9x_read_event h)
              | None => false
              end).
    { apply pipe_read_ends; [exact HB|lia]. }
    destruct (match stderr_pipe (connection_at s i) with
              | Some h => WaitHandle_eqb woke_handle (pipe9x_read_event h)
              | None => false
              end).
    { apply pipe_read_ends; [exact HB|lia]. }
    destruct (match stdin_pipe (connection_at s i) with
              | Some h => WaitHandle_eqb woke_handle (pipe9x_write_event h)
              | None => false
              end).
    { destruct (negb (write_result env =? ERROR_SUCCESS)).
      - eapply ends_weaken.
        + apply connection_close_ends; [exact HB|lia].
        + intros _ s' [HB' _]. exact HB'.
      - simpl. exact HB. }
    destruct (match process (connection_at s i) with
              | Some p => WaitHandle_eqb woke_handle (process_handle p)
              | None => false
              end).
    { apply process_exit_ends; [exact HB|lia]. }
    apply IH; [exact HB|lia].
Qed.

Lemma connection_init_ends (newsock : Z) (s : Server) :
  Bounded s -> ends (connection_init newsock s) (fun _ s' => Bounded s').
Proof.
  intros HB. pose proof (bounded_count s HB) as Hc.
  unfold connection_init. ends_step.
  destruct (num_connections s =? MAX_CONNECTIONS) eqn:E.
  - simpl. bounded_steps.
  - apply Z.eqb_neq in E. unfold MAX_CONNECTIONS in *.
    unfold bind, update, emit, modify. simpl.
    apply bounded_record.
    repeat first
      [ apply bounded_assign_keeps; [solve [auto with levels]|]
      | apply bounded_assign_sendbuf_used; [unfold SENDBUF_SIZE; lia|]
      | apply bounded_assign_recvbuf_used; [unfold RECVBUF_SIZE; lia|]
      | apply bounded_with_next_connection_id ].
    apply bounded_with_num_connections; [|exact HB].
    rewrite size_t_small by lia. unfold MAX_CONNECTIONS. lia.
Qed.

Lemma main_iteration_ends (env : LoopEnv) (s : Server) :
  Bounded s -> ends (main_iteration env s) (fun _ s' => Bounded s').
Proof.
  intros HB. unfold main_iteration. ends_step.
  destruct (wait_result env =? WAIT_FAILED); [discriminate|].
  destruct (wait_result env =? WAIT_OBJECT_0).
  - eapply ends_bind with (Q1 := fun _ s1 => Bounded s1).
    + destruct (accepted env) as [newsock|].
      * apply connection_init_ends. exact HB.
      * simpl. exact HB.
    + intros [] s1 HB1. ends_step.
      pose proof (bounded_count s1 HB1) as Hc.
      apply service_sockets_ends; [exact HB1|lia|lia].
  - destruct (negb (WAIT_OBJECT_0 <? wait_result env)); [discriminate|].
    destruct (negb (wait_result env
                    <? WAIT_OBJECT_0
                       + Z.of_nat (length (wait_handles (pending env) s))));
      [discriminate|].
    destruct (wait_handles (pending env) s
                !! Z.to_nat (wait_result env - WAIT_OBJECT_0))
      as [woke_handle|]; [|discriminate].
    pose proof (bounded_count s HB) as Hc.
    apply dispatch_handle_ends; [exact HB|lia].
Qed.

Lemma main_loop_ends (envs : list LoopEnv) (s : Server) :
  Bounded s -> ends (main_loop envs s) (fun _ s' => Bounded s').
Proof.
  revert s. induction envs as [|env rest IH]; intros s HB.
  - simpl. exact HB.
  - simpl. eapply ends_bind; [apply main_iteration_ends; exact HB|].
    intros [] s1 HB1. apply IH. exact HB1.
Qed.

Lemma bounded_initial_server : Bounded initial_server.
Proof.
  assert (Hz : forall i, connection_at initial_server i = zero_connection).
  { intros i. unfold connection_at.
    change (connections initial_server)
      with (replicate (Z.to_nat MAX_CONNECTIONS) zero_connection).
    destruct (replicate (Z.to_nat MAX_CONNECTIONS) zero_connection !! i)
      as [c|] eqn:E; [|reflexivity].
    apply lookup_replicate in E. destruct E as [-> _]. reflexivity. }
  constructor.
  - reflexivity.
  - simpl. unfold MAX_CONNECTIONS. lia.
  - intros i. rewrite Hz. unfold recvbuf_ok, RECVBUF_SIZE. simpl. lia.
  - intros i. rewrite Hz. unfold sendbuf_ok, SENDBUF_SIZE. simpl. lia.
Qed.

(** On every run of the event loop the fill level of each buffer stays
    within its array: [recvbuf_used] between 0 and [RECVBUF_SIZE],
    [sendbuf_used] between 0 and [SENDBUF_SIZE], in every slot of the
    table. *)
Theorem buffers_within_bounds_on_every_run (envs : list LoopEnv)
  (s : Server) (i : nat) :
  main_loop envs initial_server = Ok tt s ->
  0 <= recvbuf_used (connection_at s i) <= RECVBUF_SIZE /\
  0 <= sendbuf_used (connection_at s i) <= SENDBUF_SIZE.
Proof.
  intros Hrun.
  pose proof (main_loop_ends envs initial_server bounded_initial_server)
    as H.
  rewrite Hrun in H. simpl in H.
  split; [apply (bounded_recv s H)|apply (bounded_send s H)].
Qed.

Lemma buffers_within_bounds_on_every_run_witness :
  main_loop session_to_exit initial_server
    = Ok tt (server_after session_to_exit) /\
  0 <= sendbuf_used (connection_at (server_after session_to_exit) 0)
    <= SENDBUF_SIZE.
Proof.
  assert (Hrun : main_loop session_to_exit initial_server
                 = Ok tt (server_after session_to_exit))
    by (vm_compute; reflexivity).
  split; [exact Hrun|].
  exact (proj2 (buffers_within_bounds_on_every_run session_to_exit
                  (server_after session_to_exit) 0 Hrun)).
Defined.

(** Both loops with a data-dependent number of passes end on every run:
    the [while] loop of [connection_read] handles a frame of at least
    three bytes per pass, so it makes at most [recvbuf_used] passes
    before the buffer has no complete frame left; each pass of the [for]
    loop over the sockets in [main] either moves to the next session or
    destroys one, so it makes at most [num_connections] passes.  No run
    of the event loop exhausts these bounds. *)
Theorem loops_end_on_every_run (envs : list LoopEnv) :
  main_loop envs initial_server <> Crash OutOfFuel.
Proof.
  pose proof (main_loop_ends envs initial_server bounded_initial_server)
    as H.
  destruct (main_loop envs initial_server) as [a s|f]; [discriminate|].
  simpl in H. congruence.
Qed.

(** ** The frame loop runs until it stalls or no frame is left *)

Lemma post_trivial {A : Type} (o : Outcome A) : post o (fun _ _ => True).
Proof. destruct o; exact I. Qed.

Lemma post_close_then {B : Type} (idx : nat) (b : B) (s : Server)
  (Q : B -> Server -> Prop) :
  (forall s', Q b s') ->
  post ((do connection_close idx then ret b) s) Q.
Proof.
  intros HQ. eapply post_bind; [apply post_trivial|].
  intros [] s' _. apply HQ.
Qed.

(** Only the stall leaves the switch by [return true], and it leaves the
    server as it was. *)
Lemma handle_command_returns_true (idx : nat) (f : Frame) (env : FrameEnv)
  (s : Server) :
  post (handle_command idx f env s)
    (fun exit s' =>
       exit = Return true ->
       s' = s /\ command f = "I"%byte /\ payload_length f <> 0 /\
       write_pending env = true /\
       exists h, stdin_pipe (connection_at s idx) = Some h).
Proof.
  assert (Hstored : forall dst,
    post (stored idx dst f env s)
      (fun exit s' =>
         exit = Return true ->
         s' = s /\ command f = "I"%byte /\ payload_length f <> 0 /\
         write_pending env = true /\
         exists h, stdin_pipe (connection_at s idx) = Some h)).
  { intros dst. unfold stored, store_string, update.
    destruct (malloc_ok env).
    - unfold bind, modify, ret. simpl. discriminate.
    - unfold bind at 1. unfold bind at 1. unfold modify, ret.
      apply post_close_then. discriminate. }
  unfold handle_command.
  destruct (Byte.eqb (command f) "A"); [apply Hstored|].
  destruct (Byte.eqb (command f) "C"); [apply Hstored|].
  destruct (Byte.eqb (command f) "W"); [apply Hstored|].
  destruct (Byte.eqb (command f) "E").
  { unfold execute.
    eapply post_bind; [apply post_trivial|].
    intros [[stdin_read stdin_write]|] s1 _;
      [|apply post_close_then; discriminate].
    eapply post_bind; [apply post_trivial|].
    intros [[stdout_read stdout_write]|] s2 _.
    2: { unfold emit. step. step. apply post_close_then. discriminate. }
    eapply post_bind; [apply post_trivial|].
    intros [[stderr_read stderr_write]|] s3 _.
    2: { unfold emit. repeat step. apply post_close_then. discriminate. }
    unfold spawn_child, emit, update. step.
    destruct (application_path (connection_at s3 idx)); [|exact I].
    destruct (process_created env).
    - repeat step.
      destruct (negb (stdout_initiate env =? ERROR_IO_PENDING)); [exact I|].
      step.
      destruct (negb (stderr_initiate env =? ERROR_IO_PENDING)); [exact I|].
      simpl. discriminate.
    - apply post_close_then. discriminate. }
  destruct (Byte.eqb (command f) "I") eqn:Ei.
  { apply Byte.byte_dec_bl in Ei.
    unfold write_stdin, emit, update. step.
    destruct (payload_length f =? 0) eqn:E0.
    - repeat step. simpl. discriminate.
    - apply Z.eqb_neq in E0.
      destruct (stdin_pipe (connection_at s idx)) as [h|] eqn:Eh.
      + destruct (write_pending env) eqn:Ew.
        * simpl. intros _. repeat split; try assumption. exists h.
          reflexivity.
        * step.
          destruct (negb (write_initiate env =? ERROR_IO_PENDING)).
          -- apply post_close_then. discriminate.
          -- simpl. discriminate.
      + simpl. discriminate. }
  apply post_close_then. discriminate.
Qed.

Lemma read_frames_until_stalled (fuel : nat) :
  forall (idx : nat) (env : nat -> FrameEnv) (n : nat) (s : Server),
    post (read_frames fuel idx env n s)
      (fun r s' =>
         r = true ->
         parse_frame (connection_at s' idx) = None \/
         stalled_on_stdin idx s').
Proof.
  induction fuel as [|fuel IH]; intros idx env n s; [exact I|].
  simpl. step.
  destruct (parse_frame (connection_at s idx)) as [f|] eqn:Ef.
  - eapply post_bind; [apply handle_command_returns_true|].
    intros exit s1 Hx. destruct exit as [|[|]].
    + unfold update. step. apply IH.
    + simpl. intros _.
      destruct (Hx eq_refl) as (-> & Hc & Hl & _ & h & Hh).
      right. exists f, h. repeat split; assumption.
    + simpl. discriminate.
  - simpl. intros _. left. exact Ef.
Qed.

(** When [connection_read] has received bytes and returns [true], it has
    handled every complete frame at the head of the receive buffer:
    either no complete frame is left, or the frame at the head is a
    non-empty [I] frame of a session with a stdin pipe, on which the loop
    stalled. *)
Theorem connection_read_handles_complete_frames (idx : nat)
  (data : list byte) (env : nat -> FrameEnv) (s s' : Server) :
  recvbuf_used (connection_at s idx) <> RECVBUF_SIZE ->
  connection_read idx (RecvHas data) env s = Ok true s' ->
  parse_frame (connection_at s' idx) = None \/ stalled_on_stdin idx s'.
Proof.
  intros Hroom Hrun.
  assert (Hp : post (connection_read idx (RecvHas data) env s)
                 (fun r s' =>
                    r = true ->
                    parse_frame (connection_at s' idx) = None \/
                    stalled_on_stdin idx s')).
  { unfold connection_read. step.
    apply Z.eqb_neq in Hroom. rewrite Hroom.
    match goal with
    | |- post ((if ?b then _ else _) _) _ => destruct b
    end.
    - apply post_close_then. discriminate.
    - unfold update. step. step. apply read_frames_until_stalled. }
  rewrite Hrun in Hp. apply Hp. reflexivity.
Qed.

(** The client of [stalled_server] sent two [I] frames in one segment;
    the second is still at the head of the buffer. *)
Lemma connection_read_handles_complete_frames_witness :
  recvbuf_used (connection_at connected_server 0) <> RECVBUF_SIZE /\
  stalled_on_stdin 0
    (state_of
       (connection_read 0
          (RecvHas ["A"; x01; x00; "a"; "E"; x00; x00;
                    "I"; x02; x00; "a"; "b";
                    "I"; x02; x00; "c"; "d"]%byte)
          (fun n => frame_succeeds (3 <=? n)%nat) connected_server)
       connected_server).
Proof.
  assert (Hroom : recvbuf_used (connection_at connected_server 0)
                  <> RECVBUF_SIZE) by (vm_compute; discriminate).
  split; [exact Hroom|].
  destruct (connection_read_handles_complete_frames 0
              ["A"; x01; x00; "a"; "E"; x00; x00;
               "I"; x02; x00; "a"; "b";
               "I"; x02; x00; "c"; "d"]%byte
              (fun n => frame_succeeds (3 <=? n)%nat) connected_server
              (state_of
                 (connection_read 0
                    (RecvHas ["A"; x01; x00; "a"; "E"; x00; x00;
                              "I"; x02; x00; "a"; "b";
                              "I"; x02; x00; "c"; "d"]%byte)
                    (fun n => frame_succeeds (3 <=? n)%nat)
                    connected_server)
                 connected_server)
              Hroom ltac:(vm_compute; reflexivity)) as [Hn|Hs].
  - vm_compute in Hn. discriminate.
  - exact Hs.
Defined.
